(** * Rectangle, the JSON helpers and the CSS selector builder

    A shallow embedding of [src/06-objects-tasks.js].

    JavaScript objects are mutable and are handled through references, and
    the selector builder both writes to its receiver ([ensureOrder]) and
    copies it ([clone]).  The embedding therefore keeps an explicit store of
    cells (selector objects and the arrays they point to); every method is a
    computation in a state-and-exception monad over that store, with the
    receiver [this] passed as a location. *)

From Stdlib Require Import String List Arith Bool Lia PrimFloat.
From Stdlib Require Import Ascii NArith Decimal DecimalN DecimalFacts.
From stdpp Require Import base list strings.
Import ListNotations.

Local Open Scope string_scope.
Local Open Scope list_scope.

(** ** Rectangle *)

(** A JavaScript number is an IEEE 754 binary64 value and [*] on numbers is
    the binary64 product, which is what [PrimFloat.mul] computes. *)
Definition number := float.

(** The own data properties of the object made by [new Rectangle(w, h)]. *)
Record RectangleObject := { width : number; height : number }.

(** [function Rectangle(width, height)], called with [new]. *)
Definition Rectangle (width height : number) : RectangleObject :=
  {| width := width; height := height |}.

(** The function stored in [this.getArea]; it reads the receiver's fields
    when it is called. *)
Definition getArea (this : RectangleObject) : number :=
  PrimFloat.mul (width this) (height this).

(** ** The JSON helpers

    [getJSON] and [fromJSON] are the calls [JSON.stringify(obj)] and
    [Object.setPrototypeOf(JSON.parse(json), proto)].  The three functions
    of the runtime are written out here after ECMA-262 (JSON.stringify
    with SerializeJSONProperty and QuoteJSONString, JSON.parse with the
    JSON grammar, Object.setPrototypeOf), for the part of the values that
    [json] holds. *)

#[local] Unset Elimination Schemes.

(** A plain structured value.  A number is an integer that a double holds
    exactly, given by sign and magnitude, so that [-0] is a value of its
    own; a string is a sequence of code units below 256; an object is the
    list of its own properties in the order in which they are enumerated. *)
Inductive json :=
| JNull
| JBoolean (b : bool)
| JNumber (negative : bool) (magnitude : N)
| JString (s : string)
| JArray (items : list json)
| JObject (props : list (string * json)).

#[local] Set Elimination Schemes.

Definition quotation_mark : ascii := "034"%char.
Definition reverse_solidus : ascii := "092"%char.

Definition is_digit (c : ascii) : bool :=
  let n := nat_of_ascii c in Nat.leb 48 n && Nat.leb n 57.

(** The decimal digits of a [uint], most significant first. *)
Fixpoint digits (d : uint) : list ascii :=
  match d with
  | Nil => []
  | D0 d => "0"%char :: digits d
  | D1 d => "1"%char :: digits d
  | D2 d => "2"%char :: digits d
  | D3 d => "3"%char :: digits d
  | D4 d => "4"%char :: digits d
  | D5 d => "5"%char :: digits d
  | D6 d => "6"%char :: digits d
  | D7 d => "7"%char :: digits d
  | D8 d => "8"%char :: digits d
  | D9 d => "9"%char :: digits d
  end.

Fixpoint uint_of_digits (cs : list ascii) : uint :=
  match cs with
  | [] => Nil
  | c :: cs =>
      let d := uint_of_digits cs in
      match Nat.sub (nat_of_ascii c) 48 with
      | 0 => D0 d | 1 => D1 d | 2 => D2 d | 3 => D3 d | 4 => D4 d
      | 5 => D5 d | 6 => D6 d | 7 => D7 d | 8 => D8 d | _ => D9 d
      end
  end.


(** *** JSON.stringify *)

Definition hex_digit (n : nat) : ascii :=
  ascii_of_nat (if Nat.ltb n 10 then 48 + n else 87 + n).

(** QuoteJSONString, one code unit: the short escapes, [\u00xx] with
    lower-case digits for the other code units below 32, the code unit
    itself otherwise. *)
Definition escape_char (c : ascii) : list ascii :=
  let n := nat_of_ascii c in
  if Nat.eqb n 8 then [reverse_solidus; "b"%char]
  else if Nat.eqb n 9 then [reverse_solidus; "t"%char]
  else if Nat.eqb n 10 then [reverse_solidus; "n"%char]
  else if Nat.eqb n 12 then [reverse_solidus; "f"%char]
  else if Nat.eqb n 13 then [reverse_solidus; "r"%char]
  else if Nat.eqb n 34 then [reverse_solidus; quotation_mark]
  else if Nat.eqb n 92 then [reverse_solidus; reverse_solidus]
  else if Nat.ltb n 32
       then [reverse_solidus; "u"%char; "0"%char; "0"%char;
             hex_digit (Nat.div n 16); hex_digit (Nat.modulo n 16)]
  else [c].

Definition quote (s : string) : list ascii :=
  quotation_mark :: List.flat_map escape_char (list_ascii_of_string s)
  ++ [quotation_mark].

(** Number::toString on an integer: [-0] prints as [0]. *)
Definition number_text (negative : bool) (magnitude : N) : list ascii :=
  (if negative && negb (N.eqb magnitude 0) then ["-"%char] else [])
  ++ digits (N.to_uint magnitude).

(** The texts of the elements or members with a comma between them. *)
Fixpoint join_comma (texts : list (list ascii)) : list ascii :=
  match texts with
  | [] => []
  | [t] => t
  | t :: rest => t ++ ","%char :: join_comma rest
  end.

(** SerializeJSONProperty with no replacer and no indentation. *)
Fixpoint serialize (v : json) : list ascii :=
  match v with
  | JNull => list_ascii_of_string "null"
  | JBoolean true => list_ascii_of_string "true"
  | JBoolean false => list_ascii_of_string "false"
  | JNumber negative magnitude => number_text negative magnitude
  | JString s => quote s
  | JArray items =>
      "["%char :: join_comma (List.map serialize items) ++ ["]"%char]
  | JObject props =>
      "{"%char
      :: join_comma
           (List.map (fun p => quote (fst p) ++ ":"%char :: serialize (snd p))
              props)
      ++ ["}"%char]
  end.

Definition JSON_stringify (v : json) : string :=
  string_of_list_ascii (serialize v).

(** *** JSON.parse *)

(** What reading a prefix of the text gives: a value and the text left, a
    syntax error, a text outside what [json] can hold (a fraction or an
    exponent, an integer that is not safe, a code unit above 255), or the
    end of the fuel. *)
Inductive parsed (A : Type) :=
| Parsed (a : A) (rest : list ascii)
| SyntaxErr
| Unmodelled
| NoFuel.
Arguments Parsed {A} a rest.
Arguments SyntaxErr {A}.
Arguments Unmodelled {A}.
Arguments NoFuel {A}.

Definition parsed_bind {A B} (p : parsed A)
    (k : A -> list ascii -> parsed B) : parsed B :=
  match p with
  | Parsed a rest => k a rest
  | SyntaxErr => SyntaxErr
  | Unmodelled => Unmodelled
  | NoFuel => NoFuel
  end.

Definition is_ws (c : ascii) : bool :=
  let n := nat_of_ascii c in
  Nat.eqb n 32 || Nat.eqb n 9 || Nat.eqb n 10 || Nat.eqb n 13.

Fixpoint skip_ws (input : list ascii) : list ascii :=
  match input with
  | c :: rest => if is_ws c then skip_ws rest else input
  | [] => []
  end.

Fixpoint strip_prefix (prefix input : list ascii) : option (list ascii) :=
  match prefix, input with
  | [], _ => Some input
  | p :: prefix, c :: input =>
      if Ascii.eqb p c then strip_prefix prefix input else None
  | _ :: _, [] => None
  end.

Definition hex_value (c : ascii) : option nat :=
  let n := nat_of_ascii c in
  if Nat.leb 48 n && Nat.leb n 57 then Some (n - 48)
  else if Nat.leb 97 n && Nat.leb n 102 then Some (n - 87)
  else if Nat.leb 65 n && Nat.leb n 70 then Some (n - 55)
  else None.

(** The code unit a two-character escape stands for. *)
Definition unescape (e : ascii) : option ascii :=
  let n := nat_of_ascii e in
  if Nat.eqb n 34 then Some quotation_mark
  else if Nat.eqb n 92 then Some reverse_solidus
  else if Nat.eqb n 47 then Some "/"%char
  else if Nat.eqb n 98 then Some "008"%char
  else if Nat.eqb n 102 then Some "012"%char
  else if Nat.eqb n 110 then Some "010"%char
  else if Nat.eqb n 114 then Some "013"%char
  else if Nat.eqb n 116 then Some "009"%char
  else None.

Definition parsed_cons (c : ascii) (p : parsed (list ascii))
    : parsed (list ascii) :=
  parsed_bind p (fun s rest => Parsed (c :: s) rest).

(** The characters of a string after its opening quotation mark, up to the
    closing one. *)
Fixpoint parse_string (input : list ascii) : parsed (list ascii) :=
  match input with
  | [] => SyntaxErr
  | c :: rest =>
      if Ascii.eqb c quotation_mark then Parsed [] rest
      else if Ascii.eqb c reverse_solidus then
        match rest with
        | [] => SyntaxErr
        | e :: rest1 =>
            if Ascii.eqb e "u"%char then
              match rest1 with
              | h1 :: h2 :: h3 :: h4 :: rest2 =>
                  match hex_value h1, hex_value h2, hex_value h3,
                        hex_value h4 with
                  | Some a, Some b, Some c, Some d =>
                      if Nat.eqb a 0 && Nat.eqb b 0
                      then parsed_cons (ascii_of_nat (16 * c + d))
                             (parse_string rest2)
                      else Unmodelled
                  | _, _, _, _ => SyntaxErr
                  end
              | _ => SyntaxErr
              end
            else
              match unescape e with
              | Some c' => parsed_cons c' (parse_string rest1)
              | None => SyntaxErr
              end
        end
      else if Nat.ltb (nat_of_ascii c) 32 then SyntaxErr
      else parsed_cons c (parse_string rest)
  end.

Fixpoint take_digits (input : list ascii) : list ascii * list ascii :=
  match input with
  | c :: rest =>
      if is_digit c
      then let (ds, rest') := take_digits rest in (c :: ds, rest')
      else ([], input)
  | [] => ([], [])
  end.

Definition starts_fraction_or_exponent (input : list ascii) : bool :=
  match input with
  | c :: _ =>
      Ascii.eqb c "."%char || Ascii.eqb c "e"%char || Ascii.eqb c "E"%char
  | [] => false
  end.

(** A number: an optional minus sign, then [0] or digits that do not start
    with [0]. *)
Definition parse_number (input : list ascii) : parsed json :=
  let (negative, unsigned) :=
    match input with
    | c :: rest => if Ascii.eqb c "-"%char then (true, rest) else (false, input)
    | [] => (false, input)
    end in
  let (ds, rest) := take_digits unsigned in
  match ds with
  | [] => SyntaxErr
  | d :: more =>
      if Ascii.eqb d "0"%char && negb (Nat.eqb (List.length more) 0)
      then SyntaxErr
      else if starts_fraction_or_exponent rest then Unmodelled
      else
        let magnitude := N.of_uint (uint_of_digits ds) in
        if N.ltb magnitude (2 ^ 53)
        then Parsed (JNumber negative magnitude) rest
        else Unmodelled
  end.

(** *** The properties of the object that JSON.parse builds *)

(** The array index a property key denotes, if it is the canonical text of
    an integer below [2^32 - 1]. *)
Definition array_index (key : string) : option N :=
  let cs := list_ascii_of_string key in
  match cs with
  | [] => None
  | d :: more =>
      if negb (List.forallb is_digit cs) then None
      else if Ascii.eqb d "0"%char && negb (Nat.eqb (List.length more) 0)
      then None
      else
        let n := N.of_uint (uint_of_digits cs) in
        if N.ltb n (2 ^ 32 - 1) then Some n else None
  end.

Section Properties.

Context {A : Type}.

Definition has_key (key : string) (props : list (string * A)) : bool :=
  List.existsb (fun p => String.eqb key (fst p)) props.

Fixpoint replace_value (key : string) (x : A) (props : list (string * A))
    : list (string * A) :=
  match props with
  | [] => []
  | p :: rest =>
      if String.eqb key (fst p) then (fst p, x) :: rest
      else p :: replace_value key x rest
  end.

(** A new array-index key goes after the smaller array indices and before
    everything else. *)
Fixpoint insert_index (i : N) (key : string) (x : A)
    (props : list (string * A)) : list (string * A) :=
  match props with
  | [] => [(key, x)]
  | p :: rest =>
      match array_index (fst p) with
      | Some j =>
          if N.ltb j i then p :: insert_index i key x rest
          else (key, x) :: props
      | None => (key, x) :: props
      end
  end.

(** CreateDataProperty as enumeration sees it: a key that is there keeps
    its place and takes the new value; a new key is enumerated among the
    array indices in ascending order, or last. *)
Definition define_property (props : list (string * A)) (entry : string * A)
    : list (string * A) :=
  if has_key (fst entry) props
  then replace_value (fst entry) (snd entry) props
  else
    match array_index (fst entry) with
    | Some i => insert_index i (fst entry) (snd entry) props
    | None => props ++ [entry]
    end.

Definition object_properties (entries : list (string * A))
    : list (string * A) :=
  List.fold_left define_property entries [].

End Properties.

Definition begins_with (c : ascii) (input : list ascii) : bool :=
  match input with
  | x :: _ => Ascii.eqb x c
  | [] => false
  end.

(** A key, a colon and what follows the colon, after the opening quotation
    mark of the key. *)
Definition parse_key (input : list ascii) : parsed string :=
  parsed_bind (parse_string input) (fun k rest =>
    match skip_ws rest with
    | c :: rest' =>
        if Ascii.eqb c ":"%char then Parsed (string_of_list_ascii k) rest'
        else SyntaxErr
    | [] => SyntaxErr
    end).

Fixpoint parse_value (fuel : nat) (input : list ascii) : parsed json :=
  match fuel with
  | O => NoFuel
  | S fuel =>
      match skip_ws input with
      | [] => SyntaxErr
      | c :: rest =>
          if Ascii.eqb c "n"%char then
            match strip_prefix (list_ascii_of_string "ull") rest with
            | Some rest' => Parsed JNull rest'
            | None => SyntaxErr
            end
          else if Ascii.eqb c "t"%char then
            match strip_prefix (list_ascii_of_string "rue") rest with
            | Some rest' => Parsed (JBoolean true) rest'
            | None => SyntaxErr
            end
          else if Ascii.eqb c "f"%char then
            match strip_prefix (list_ascii_of_string "alse") rest with
            | Some rest' => Parsed (JBoolean false) rest'
            | None => SyntaxErr
            end
          else if Ascii.eqb c quotation_mark then
            parsed_bind (parse_string rest) (fun s rest' =>
              Parsed (JString (string_of_list_ascii s)) rest')
          else if Ascii.eqb c "["%char then
            if begins_with "]"%char (skip_ws rest)
            then Parsed (JArray []) (List.tl (skip_ws rest))
            else
              parsed_bind (parse_value fuel rest) (fun x rest1 =>
              parsed_bind (parse_elements fuel rest1) (fun xs rest2 =>
                Parsed (JArray (x :: xs)) rest2))
          else if Ascii.eqb c "{"%char then
            if begins_with "}"%char (skip_ws rest)
            then Parsed (JObject []) (List.tl (skip_ws rest))
            else if begins_with quotation_mark (skip_ws rest) then
              parsed_bind (parse_key (List.tl (skip_ws rest))) (fun k rest1 =>
              parsed_bind (parse_value fuel rest1) (fun x rest2 =>
              parsed_bind (parse_members fuel rest2) (fun ms rest3 =>
                Parsed (JObject (object_properties ((k, x) :: ms))) rest3)))
            else SyntaxErr
          else if Ascii.eqb c "-"%char || is_digit c
          then parse_number (c :: rest)
          else SyntaxErr
      end
  end

with parse_elements (fuel : nat) (input : list ascii) : parsed (list json) :=
  match fuel with
  | O => NoFuel
  | S fuel =>
      match skip_ws input with
      | [] => SyntaxErr
      | c :: rest =>
          if Ascii.eqb c "]"%char then Parsed [] rest
          else if Ascii.eqb c ","%char then
            parsed_bind (parse_value fuel rest) (fun x rest1 =>
            parsed_bind (parse_elements fuel rest1) (fun xs rest2 =>
              Parsed (x :: xs) rest2))
          else SyntaxErr
      end
  end

with parse_members (fuel : nat) (input : list ascii)
    : parsed (list (string * json)) :=
  match fuel with
  | O => NoFuel
  | S fuel =>
      match skip_ws input with
      | [] => SyntaxErr
      | c :: rest =>
          if Ascii.eqb c "}"%char then Parsed [] rest
          else if Ascii.eqb c ","%char then
            if begins_with quotation_mark (skip_ws rest) then
              parsed_bind (parse_key (List.tl (skip_ws rest))) (fun k rest1 =>
              parsed_bind (parse_value fuel rest1) (fun x rest2 =>
              parsed_bind (parse_members fuel rest2) (fun ms rest3 =>
                Parsed ((k, x) :: ms) rest3)))
            else SyntaxErr
          else SyntaxErr
      end
  end.

(** How a call ends: with a value, with a [SyntaxError], with a
    [TypeError], or outside what is modelled. *)
Inductive completion (A : Type) :=
| Completed (a : A)
| ThrewSyntaxError
| ThrewTypeError
| NotModelled.
Arguments Completed {A} a.
Arguments ThrewSyntaxError {A}.
Arguments ThrewTypeError {A}.
Arguments NotModelled {A}.

(** The whole text is one value, with white space allowed around it.  Every
    call of the parser comes after a character was read, so the length of
    the text bounds the fuel needed. *)
Definition JSON_parse (text : string) : completion json :=
  let input := list_ascii_of_string text in
  match parse_value (S (List.length input)) input with
  | Parsed v rest =>
      match skip_ws rest with
      | [] => Completed v
      | _ :: _ => ThrewSyntaxError
      end
  | SyntaxErr => ThrewSyntaxError
  | Unmodelled => NotModelled
  | NoFuel => NotModelled
  end.

(** *** Object.setPrototypeOf *)

(** What [Object.setPrototypeOf(obj, proto)] returns: a primitive as it
    is, or the object or array [v] with [proto] in the place of the
    prototype of its top level. *)
Inductive instance (P : Type) :=
| Primitive (v : json)
| WithPrototype (proto : P) (v : json).
Arguments Primitive {P} v.
Arguments WithPrototype {P} proto v.

(** [null] is not object-coercible, which throws; a primitive is returned
    unchanged; an object gets the prototype.  [proto] is an object, so the
    check on it passes, and the object is new and extensible, so setting
    succeeds. *)
Definition Object_setPrototypeOf {P : Type} (obj : json) (proto : P)
    : completion (instance P) :=
  match obj with
  | JNull => ThrewTypeError
  | JBoolean _ | JNumber _ _ | JString _ => Completed (Primitive obj)
  | JArray _ | JObject _ => Completed (WithPrototype proto obj)
  end.

(** *** The two functions of the source *)

Definition getJSON (obj : json) : string := JSON_stringify obj.

Definition fromJSON {P : Type} (proto : P) (json : string)
    : completion (instance P) :=
  match JSON_parse json with
  | Completed obj => Object_setPrototypeOf obj proto
  | ThrewSyntaxError => ThrewSyntaxError
  | ThrewTypeError => ThrewTypeError
  | NotModelled => NotModelled
  end.


(** *** Values that round-trip *)

(** A value of the part of JavaScript modelled: every number is a safe
    integer and every object lists its properties in enumeration order,
    the order in which defining them one by one leaves them. *)
Fixpoint js_value (v : json) : Prop :=
  match v with
  | JNumber _ magnitude => (magnitude < 2 ^ 53)%N
  | JArray items =>
      (fix all (l : list json) : Prop :=
         match l with
         | [] => True
         | x :: rest => js_value x /\ all rest
         end) items
  | JObject props =>
      object_properties props = props
      /\ (fix all (l : list (string * json)) : Prop :=
            match l with
            | [] => True
            | p :: rest => js_value (snd p) /\ all rest
            end) props
  | _ => True
  end.

Fixpoint no_negative_zero (v : json) : bool :=
  match v with
  | JNumber negative magnitude => negb (negative && N.eqb magnitude 0)
  | JArray items => List.forallb no_negative_zero items
  | JObject props => List.forallb (fun p => no_negative_zero (snd p)) props
  | _ => true
  end.

(** An object or an array, not [null] and not another primitive. *)
Definition is_object (v : json) : bool :=
  match v with
  | JArray _ | JObject _ => true
  | _ => false
  end.

(** What may follow a number in a text: not a digit, and not the start of a
    fraction or of an exponent. *)
Definition ends_number (rest : list ascii) : bool :=
  match rest with
  | c :: _ => negb (is_digit c) && negb (starts_fraction_or_exponent rest)
  | [] => true
  end.

(** The text after the first element of an array, and after the first
    member of an object, up to the closing bracket. *)
Definition elements_text (xs : list json) : list ascii :=
  List.flat_map (fun x => ","%char :: serialize x) xs.

Definition member_text (p : string * json) : list ascii :=
  List.flat_map escape_char (list_ascii_of_string (fst p))
  ++ quotation_mark :: ":"%char :: serialize (snd p).

Definition members_text (ps : list (string * json)) : list ascii :=
  List.flat_map (fun p => ","%char :: quotation_mark :: member_text p) ps.

(** The first character of a value. *)
Definition value_start (c : ascii) : bool :=
  Ascii.eqb c "n"%char || Ascii.eqb c "t"%char || Ascii.eqb c "f"%char
  || Ascii.eqb c quotation_mark || Ascii.eqb c "["%char
  || Ascii.eqb c "{"%char || Ascii.eqb c "-"%char || is_digit c.

(** What the induction of the round trip carries: the value, written and
    followed by text that cannot continue a number, is read back, with
    that text left. *)
Definition reads_back (v : json) : Prop :=
  js_value v -> no_negative_zero v = true ->
  forall fuel rest,
    List.length (serialize v) < fuel ->
    ends_number rest = true ->
    parse_value fuel (serialize v ++ rest) = Parsed v rest.

(** ** The store *)

Abbreviation loc := nat.

(** The properties of a [Selector] built by the non-combined branch of the
    constructor.  The three arrays are objects of their own, held by
    reference. *)
Record simple := Simple {
  elementValue : string;
  idValue : string;
  classValues : loc;
  attrValues : loc;
  pseudoClassValues : loc;
  pseudoElementValue : string;
  order : nat
}.

(** The properties of a [Selector] built by the combined branch.  Such an
    object has no [order] property until [ensureOrder] writes one. *)
Record combined := Combined {
  selector1 : loc;
  combinator : string;
  selector2 : loc;
  combined_order : option nat
}.

(** What a location holds: an array of strings, or a [Selector] whose
    [isCombined] is [false] ([SimpleSel]) or [true] ([CombinedSel]). *)
Inductive cell :=
| Array (items : list string)
| SimpleSel (s : simple)
| CombinedSel (c : combined).

Abbreviation heap := (list cell).

Definition isCombined (c : cell) : bool :=
  match c with CombinedSel _ => true | _ => false end.

(** Field writes [o.f = v] on a simple selector. *)
Definition set_elementValue (v : string) (s : simple) : simple :=
  Simple v (idValue s) (classValues s) (attrValues s) (pseudoClassValues s)
         (pseudoElementValue s) (order s).
Definition set_idValue (v : string) (s : simple) : simple :=
  Simple (elementValue s) v (classValues s) (attrValues s)
         (pseudoClassValues s) (pseudoElementValue s) (order s).
Definition set_classValues (v : loc) (s : simple) : simple :=
  Simple (elementValue s) (idValue s) v (attrValues s) (pseudoClassValues s)
         (pseudoElementValue s) (order s).
Definition set_attrValues (v : loc) (s : simple) : simple :=
  Simple (elementValue s) (idValue s) (classValues s) v (pseudoClassValues s)
         (pseudoElementValue s) (order s).
Definition set_pseudoClassValues (v : loc) (s : simple) : simple :=
  Simple (elementValue s) (idValue s) (classValues s) (attrValues s) v
         (pseudoElementValue s) (order s).
Definition set_pseudoElementValue (v : string) (s : simple) : simple :=
  Simple (elementValue s) (idValue s) (classValues s) (attrValues s)
         (pseudoClassValues s) v (order s).
Definition set_order (v : nat) (s : simple) : simple :=
  Simple (elementValue s) (idValue s) (classValues s) (attrValues s)
         (pseudoClassValues s) (pseudoElementValue s) v.

(** ** Values and truthiness *)

(** The values a property read [this[fieldName]] can give here. *)
Inductive value :=
| VUndefined
| VString (s : string)
| VNumber (n : nat)
| VBoolean (b : bool)
| VObject (l : loc).

Definition is_empty (s : string) : bool :=
  match s with EmptyString => true | String _ _ => false end.

(** JavaScript's ToBoolean: [undefined], [''], [0] and [false] are falsy,
    every object is truthy. *)
Definition truthy (v : value) : bool :=
  match v with
  | VUndefined => false
  | VString s => negb (is_empty s)
  | VNumber n => negb (Nat.eqb n 0)
  | VBoolean b => b
  | VObject _ => true
  end.

Definition of_option {A} (f : A -> value) (o : option A) : value :=
  match o with Some a => f a | None => VUndefined end.

(** [c[fieldName]] for a selector object. *)
Definition get_property (fieldName : string) (c : cell) : value :=
  match c with
  | SimpleSel s =>
      if String.eqb fieldName "elementValue" then VString (elementValue s)
      else if String.eqb fieldName "idValue" then VString (idValue s)
      else if String.eqb fieldName "classValues" then VObject (classValues s)
      else if String.eqb fieldName "attrValues" then VObject (attrValues s)
      else if String.eqb fieldName "pseudoClassValues"
           then VObject (pseudoClassValues s)
      else if String.eqb fieldName "pseudoElementValue"
           then VString (pseudoElementValue s)
      else if String.eqb fieldName "order" then VNumber (order s)
      else if String.eqb fieldName "isCombined" then VBoolean false
      else VUndefined
  | CombinedSel c =>
      if String.eqb fieldName "selector1" then VObject (selector1 c)
      else if String.eqb fieldName "combinator" then VString (combinator c)
      else if String.eqb fieldName "selector2" then VObject (selector2 c)
      else if String.eqb fieldName "order"
           then of_option VNumber (combined_order c)
      else if String.eqb fieldName "isCombined" then VBoolean true
      else VUndefined
  | Array _ => VUndefined
  end.

(** ** The monad: a store threaded through, and exceptions *)

(** [Error] is [new Error(message)]; [TypeError] is what the runtime throws
    when a value is used as something it is not. *)
Inductive error :=
| Error (message : string)
| TypeError (message : string).

Inductive outcome (A : Type) :=
| Ok (a : A)
| Throw (e : error).
Arguments Ok {A} a.
Arguments Throw {A} e.

(** A computation returns or throws, and leaves a store behind in both
    cases: what was written before a [throw] stays written. *)
Definition M (A : Type) := heap -> outcome A * heap.

Definition ret {A} (a : A) : M A := fun h => (Ok a, h).

Definition throw {A} (e : error) : M A := fun h => (Throw e, h).

Definition bind {A B} (m : M A) (k : A -> M B) : M B :=
  fun h =>
    match m h with
    | (Ok a, h') => k a h'
    | (Throw e, h') => (Throw e, h')
    end.

Declare Scope js_scope.
Delimit Scope js_scope with js.
Notation "x <- m ;; k" := (bind m (fun x => k))
  (at level 100, m at next level, right associativity) : js_scope.
Notation "m ;; k" := (bind m (fun _ => k))
  (at level 100, right associativity) : js_scope.
Local Open Scope js_scope.

(** Allocation of a new object: it gets the next free location. *)
Definition alloc (c : cell) : M loc :=
  fun h => (Ok (List.length h), h ++ [c]).

(** Dereference.  A reference always points into the store in JavaScript;
    a location outside it behaves as [undefined] would. *)
Definition load (l : loc) : M cell :=
  fun h =>
    match h !! l with
    | Some c => (Ok c, h)
    | None => (Throw (TypeError "undefined"), h)
    end.

Definition store (l : loc) (c : cell) : M unit :=
  fun h => (Ok tt, <[l := c]> h).

(** [o.f = v] for a property [f] of a simple selector [o]. *)
Definition assign (o : loc) (f : simple -> simple) : M unit :=
  c <- load o ;;
  match c with
  | SimpleSel s => store o (SimpleSel (f s))
  | _ => throw (TypeError "not a simple selector")
  end.

(** The items of the array at [a]. *)
Definition read_array (a : loc) : M (list string) :=
  c <- load a ;;
  match c with
  | Array items => ret items
  | _ => throw (TypeError "not iterable")
  end.

(** [a.push(x)] *)
Definition push (a : loc) (x : string) : M unit :=
  items <- read_array a ;;
  store a (Array (items ++ [x])).

(** [a.join('')]: the items one after the other. *)
Definition join (items : list string) : string := String.concat "" items.

(** ** class Selector *)

Definition order_message : string :=
  "Selector parts should be arranged in the following order: element, id, class, attribute, pseudo-class, pseudo-element".

Definition single_message : string :=
  "Element, id and pseudo-element should not occur more then one time inside the selector".

Module Selector.

(** The guard [selector1 && combinator && selector2] of the constructor:
    the three properties of the combined selector when all three arguments
    are truthy.  An argument that is left out is [undefined], here [None]. *)
Definition combined_arguments (selector1 : option loc)
    (combinator : option string) (selector2 : option loc) : option combined :=
  if truthy (of_option VObject selector1)
     && truthy (of_option VString combinator)
     && truthy (of_option VObject selector2)
  then
    match selector1, combinator, selector2 with
    | Some s1, Some c, Some s2 => Some (Combined s1 c s2 None)
    | _, _, _ => None
    end
  else None.

(** [new Selector(selector1, combinator, selector2)].  When the guard fails
    the arguments are dropped and an empty simple selector is built, with
    three new empty arrays. *)
Definition constructor (selector1 : option loc) (combinator : option string)
    (selector2 : option loc) : M loc :=
  match combined_arguments selector1 combinator selector2 with
  | Some c => alloc (CombinedSel c)
  | None =>
      classes <- alloc (Array []) ;;
      attrs <- alloc (Array []) ;;
      pseudoClasses <- alloc (Array []) ;;
      alloc (SimpleSel (Simple "" "" classes attrs pseudoClasses "" 0))
  end.

(** [orderValue < this.order] is false when [this.order] is [undefined]. *)
Definition ensureOrder (orderValue : nat) (this : loc) : M unit :=
  c <- load this ;;
  match c with
  | SimpleSel s =>
      if Nat.ltb orderValue (order s)
      then throw (Error order_message)
      else store this (SimpleSel (set_order orderValue s))
  | CombinedSel c =>
      match combined_order c with
      | Some o =>
          if Nat.ltb orderValue o
          then throw (Error order_message)
          else store this (CombinedSel
                 (Combined (selector1 c) (combinator c) (selector2 c)
                           (Some orderValue)))
      | None =>
          store this (CombinedSel
            (Combined (selector1 c) (combinator c) (selector2 c)
                      (Some orderValue)))
      end
  | Array _ => throw (TypeError "ensureOrder is not a function")
  end.

Definition ensureSingle (fieldName : string) (this : loc) : M unit :=
  c <- load this ;;
  if truthy (get_property fieldName c)
  then throw (Error single_message)
  else ret tt.

(** [clone]: a new empty selector, then the seven assignments.  Each
    spread [[...a]] allocates a new array with the items of [a]; on a
    combined receiver [this.classValues] is [undefined] and the spread
    throws. *)
Definition clone (this : loc) : M loc :=
  copy <- constructor None None None ;;
  c <- load this ;;
  match c with
  | SimpleSel s =>
      assign copy (set_elementValue (elementValue s)) ;;
      assign copy (set_idValue (idValue s)) ;;
      items <- read_array (classValues s) ;;
      a <- alloc (Array items) ;;
      assign copy (set_classValues a) ;;
      items <- read_array (attrValues s) ;;
      a <- alloc (Array items) ;;
      assign copy (set_attrValues a) ;;
      items <- read_array (pseudoClassValues s) ;;
      a <- alloc (Array items) ;;
      assign copy (set_pseudoClassValues a) ;;
      assign copy (set_pseudoElementValue (pseudoElementValue s)) ;;
      assign copy (set_order (order s)) ;;
      ret copy
  | _ => throw (TypeError "this.classValues is not iterable")
  end.

(** [next.classValues.push(x)] and its two siblings: read the array
    reference out of [next], then push onto that array. *)
Definition push_to (field : simple -> loc) (next : loc) (x : string)
    : M unit :=
  c <- load next ;;
  match c with
  | SimpleSel s => push (field s) x
  | _ => throw (TypeError "undefined")
  end.

Definition element (value : string) (this : loc) : M loc :=
  ensureOrder 1 this ;;
  ensureSingle "elementValue" this ;;
  next <- clone this ;;
  assign next (set_elementValue value) ;;
  assign next (set_order 1) ;;
  ret next.

Definition id (value : string) (this : loc) : M loc :=
  ensureOrder 2 this ;;
  ensureSingle "idValue" this ;;
  next <- clone this ;;
  assign next (set_idValue ("#" +:+ value)) ;;
  assign next (set_order 2) ;;
  ret next.

Definition class (value : string) (this : loc) : M loc :=
  ensureOrder 3 this ;;
  next <- clone this ;;
  push_to classValues next ("." +:+ value) ;;
  assign next (set_order 3) ;;
  ret next.

Definition attr (value : string) (this : loc) : M loc :=
  ensureOrder 4 this ;;
  next <- clone this ;;
  push_to attrValues next ("[" +:+ value +:+ "]") ;;
  assign next (set_order 4) ;;
  ret next.

Definition pseudoClass (value : string) (this : loc) : M loc :=
  ensureOrder 5 this ;;
  next <- clone this ;;
  push_to pseudoClassValues next (":" +:+ value) ;;
  assign next (set_order 5) ;;
  ret next.

Definition pseudoElement (value : string) (this : loc) : M loc :=
  ensureOrder 6 this ;;
  ensureSingle "pseudoElementValue" this ;;
  next <- clone this ;;
  assign next (set_pseudoElementValue ("::" +:+ value)) ;;
  assign next (set_order 6) ;;
  ret next.

(** [stringify] reads the store and writes nothing.  The combined branch
    calls [stringify] on the two children, which are references, so the
    recursion is on the store and not on a term: [fuel] bounds its depth
    and [None] means the bound was reached. *)
Fixpoint stringify_fuel (fuel : nat) (this : loc) (h : heap)
    : option (outcome string) :=
  match fuel with
  | O => None
  | S fuel =>
      match h !! this with
      | Some (CombinedSel c) =>
          match stringify_fuel fuel (selector1 c) h with
          | Some (Ok s1) =>
              match stringify_fuel fuel (selector2 c) h with
              | Some (Ok s2) =>
                  Some (Ok (s1 +:+ " " +:+ combinator c +:+ " " +:+ s2))
              | r => r
              end
          | r => r
          end
      | Some (SimpleSel s) =>
          match h !! classValues s, h !! attrValues s,
                h !! pseudoClassValues s with
          | Some (Array cs), Some (Array ats), Some (Array pcs) =>
              Some (Ok (elementValue s +:+ idValue s +:+ join cs
                        +:+ join ats +:+ join pcs +:+ pseudoElementValue s))
          | _, _, _ => Some (Throw (TypeError "join is not a function"))
          end
      | _ => Some (Throw (TypeError "stringify is not a function"))
      end
  end.

(** A child of a combined selector was built before it, so it sits at a
    smaller location: the size of the store bounds the depth. *)
Definition stringify (this : loc) (h : heap) : option (outcome string) :=
  stringify_fuel (List.length h) this h.

End Selector.

(** ** The facade *)

Module cssSelectorBuilder.

Definition element (value : string) : M loc :=
  this <- Selector.constructor None None None ;; Selector.element value this.

Definition id (value : string) : M loc :=
  this <- Selector.constructor None None None ;; Selector.id value this.

Definition class (value : string) : M loc :=
  this <- Selector.constructor None None None ;; Selector.class value this.

Definition attr (value : string) : M loc :=
  this <- Selector.constructor None None None ;; Selector.attr value this.

Definition pseudoClass (value : string) : M loc :=
  this <- Selector.constructor None None None ;;
  Selector.pseudoClass value this.

Definition pseudoElement (value : string) : M loc :=
  this <- Selector.constructor None None None ;;
  Selector.pseudoElement value this.

Definition combine (selector1 : loc) (combinator : string) (selector2 : loc)
    : M loc :=
  Selector.constructor (Some selector1) (Some combinator) (Some selector2).

End cssSelectorBuilder.

(** ** Categories and builder chains *)

Inductive category :=
| Element | Id | Class | Attr | PseudoClass | PseudoElement.

(** The constant each method hands to [ensureOrder]. *)
Definition rank (c : category) : nat :=
  match c with
  | Element => 1 | Id => 2 | Class => 3
  | Attr => 4 | PseudoClass => 5 | PseudoElement => 6
  end.

(** The methods that call [ensureSingle]. *)
Definition single (c : category) : bool :=
  match c with
  | Element | Id | PseudoElement => true
  | Class | Attr | PseudoClass => false
  end.

Definition method (c : category) : string -> loc -> M loc :=
  match c with
  | Element => Selector.element
  | Id => Selector.id
  | Class => Selector.class
  | Attr => Selector.attr
  | PseudoClass => Selector.pseudoClass
  | PseudoElement => Selector.pseudoElement
  end.

Definition entry (c : category) : string -> M loc :=
  match c with
  | Element => cssSelectorBuilder.element
  | Id => cssSelectorBuilder.id
  | Class => cssSelectorBuilder.class
  | Attr => cssSelectorBuilder.attr
  | PseudoClass => cssSelectorBuilder.pseudoClass
  | PseudoElement => cssSelectorBuilder.pseudoElement
  end.

(** One call of a chain: the category and the value passed. *)
Record call := Call { category_of : category; value_of : string }.

(** [this.m1(v1).m2(v2)...]: each method is called on what the one before
    it returned. *)
Fixpoint chain (calls : list call) (this : loc) : M loc :=
  match calls with
  | [] => ret this
  | c :: rest =>
      next <- method (category_of c) (value_of c) this ;;
      chain rest next
  end.

(** [cssSelectorBuilder.m0(v0).m1(v1)...] *)
Definition builder_chain (first : call) (rest : list call) : M loc :=
  this <- entry (category_of first) (value_of first) ;;
  chain rest this.

(** *** Valid chains and the text they should give

    These follow the wording of the specification; what the code does with
    a chain is [builder_chain] above. *)

Definition category_eqb (a b : category) : bool := Nat.eqb (rank a) (rank b).

Fixpoint nondecreasing (ranks : list nat) : bool :=
  match ranks with
  | a :: (b :: _) as rest => Nat.leb a b && nondecreasing rest
  | _ => true
  end.

Definition of_category (c : category) (calls : list call) : list call :=
  List.filter (fun x => category_eqb (category_of x) c) calls.

Definition at_most_once (c : category) (calls : list call) : bool :=
  Nat.leb (List.length (of_category c calls)) 1.

(** Ranks never go down, and element, id and pseudo-element occur at most
    once. *)
Definition valid_chain (calls : list call) : bool :=
  nondecreasing (List.map (fun x => rank (category_of x)) calls)
  && at_most_once Element calls
  && at_most_once Id calls
  && at_most_once PseudoElement calls.

(** The decorated text of one part. *)
Definition token (c : call) : string :=
  match category_of c with
  | Element => value_of c
  | Id => "#" +:+ value_of c
  | Class => "." +:+ value_of c
  | Attr => "[" +:+ value_of c +:+ "]"
  | PseudoClass => ":" +:+ value_of c
  | PseudoElement => "::" +:+ value_of c
  end.

Definition tokens (calls : list call) : list string := List.map token calls.

(** The parts in call order, nothing between them. *)
Definition in_call_order (calls : list call) : string :=
  join (tokens calls).

(** The parts group by group: element, id, classes, attributes,
    pseudo-classes, pseudo-element, each group in insertion order. *)
Definition by_group (calls : list call) : string :=
  join (tokens (of_category Element calls))
  +:+ join (tokens (of_category Id calls))
  +:+ join (tokens (of_category Class calls))
  +:+ join (tokens (of_category Attr calls))
  +:+ join (tokens (of_category PseudoClass calls))
  +:+ join (tokens (of_category PseudoElement calls)).

(** ** Combinator trees *)

Definition combinators : list string := [" "; "+"; "~"; ">"].

(** A selector expression as a caller writes it: a builder chain, or
    [combine] of two expressions. *)
Inductive expression :=
| Compound (first : call) (rest : list call)
| Combine (lhs : expression) (symbol : string) (rhs : expression).

(** Evaluation of the expression: arguments left to right, then the call. *)
Fixpoint build (e : expression) : M loc :=
  match e with
  | Compound first rest => builder_chain first rest
  | Combine lhs symbol rhs =>
      selector1 <- build lhs ;;
      selector2 <- build rhs ;;
      cssSelectorBuilder.combine selector1 symbol selector2
  end.

(** The flattened left-to-right text of the expression. *)
Fixpoint flattened (e : expression) : string :=
  match e with
  | Compound first rest => in_call_order (first :: rest)
  | Combine lhs symbol rhs =>
      flattened lhs +:+ " " +:+ symbol +:+ " " +:+ flattened rhs
  end.

Definition is_combinator (symbol : string) : bool :=
  List.existsb (String.eqb symbol) combinators.

Fixpoint valid_expression (e : expression) : bool :=
  match e with
  | Compound first rest => valid_chain (first :: rest)
  | Combine lhs symbol rhs =>
      valid_expression lhs && is_combinator symbol && valid_expression rhs
  end.

(** ** What a simple selector shows *)

(** The state of a simple selector with its arrays read out of the store:
    the stored parts and the last rank. *)
Record view := View {
  v_element : string;
  v_id : string;
  v_classes : list string;
  v_attrs : list string;
  v_pseudoClasses : list string;
  v_pseudoElement : string;
  v_order : nat
}.

Definition observe (this : loc) (h : heap) : option view :=
  match h !! this with
  | Some (SimpleSel s) =>
      match h !! classValues s, h !! attrValues s,
            h !! pseudoClassValues s with
      | Some (Array cs), Some (Array ats), Some (Array pcs) =>
          Some (View (elementValue s) (idValue s) cs ats pcs
                  (pseudoElementValue s) (order s))
      | _, _, _ => None
      end
  | _ => None
  end.

(** The text [stringify] gives for a simple selector in that state. *)
Definition render (f : view) : string :=
  v_element f +:+ v_id f +:+ join (v_classes f)
  +:+ join (v_attrs f) +:+ join (v_pseudoClasses f)
  +:+ v_pseudoElement f.

Definition with_order (n : nat) (f : view) : view :=
  View (v_element f) (v_id f) (v_classes f) (v_attrs f) (v_pseudoClasses f)
       (v_pseudoElement f) n.

(** The state of the selector a method returns, from the state of its
    receiver ([method_cases] below proves it of the six methods). *)
Definition apply_call (c : category) (value : string) (f : view) : view :=
  match c with
  | Element =>
      View value (v_id f) (v_classes f) (v_attrs f) (v_pseudoClasses f)
           (v_pseudoElement f) 1
  | Id =>
      View (v_element f) ("#" +:+ value) (v_classes f) (v_attrs f)
           (v_pseudoClasses f) (v_pseudoElement f) 2
  | Class =>
      View (v_element f) (v_id f) (v_classes f ++ ["." +:+ value])
           (v_attrs f) (v_pseudoClasses f) (v_pseudoElement f) 3
  | Attr =>
      View (v_element f) (v_id f) (v_classes f)
           (v_attrs f ++ ["[" +:+ value +:+ "]"]) (v_pseudoClasses f)
           (v_pseudoElement f) 4
  | PseudoClass =>
      View (v_element f) (v_id f) (v_classes f) (v_attrs f)
           (v_pseudoClasses f ++ [":" +:+ value]) (v_pseudoElement f) 5
  | PseudoElement =>
      View (v_element f) (v_id f) (v_classes f) (v_attrs f)
           (v_pseudoClasses f) ("::" +:+ value) 6
  end.

(** The property [ensureSingle] reads in the method of category [c]. *)
Definition single_value (c : category) (f : view) : string :=
  match c with
  | Element => v_element f
  | Id => v_id f
  | PseudoElement => v_pseudoElement f
  | _ => ""
  end.

(** The category is one of the three guarded ones and its property is
    truthy. *)
Definition already_set (c : category) (f : view) : bool :=
  single c && truthy (VString (single_value c f)).

(** The state of a new empty selector. *)
Definition empty_view : view := View "" "" [] [] [] "" 0.

(** ** Stores that differ by allocation and by [order] writes *)

(** [h] after the write [this.order = n] of [ensureOrder]. *)
Definition marked (n : nat) (this : loc) (s : simple) (h : heap) : heap :=
  <[this := SimpleSel (set_order n s)]> h.

(** [h] after the write of [ensureOrder] on a combined selector, which
    has no [order] before the first such write. *)
Definition ranked (n : nat) (this : loc) (c : combined) (h : heap) : heap :=
  <[this := CombinedSel (Combined (selector1 c) (combinator c) (selector2 c)
                           (Some n))]> h.

(** The store after a successful category method: the receiver marked with
    the method's rank, then the empty selector of [new Selector()] turned
    into the copy [next] (three arrays that are dropped, the copy, and the
    three arrays the copy points to). *)
Definition extended (h : heap) (this : loc) (s next : simple)
    (cs ats pcs : list string) : heap :=
  marked (order next) this s h ++
  [Array []; Array []; Array [];
   SimpleSel (Simple (elementValue next) (idValue next) (List.length h + 4)
                (List.length h + 5) (List.length h + 6)
                (pseudoElementValue next) (order next));
   Array cs; Array ats; Array pcs].

(** Two cells that [stringify] cannot tell apart: they differ at most in
    [order]. *)
Definition same_text (c c' : cell) : Prop :=
  match c, c' with
  | Array a, Array b => a = b
  | SimpleSel s, SimpleSel s' => set_order 0 s = set_order 0 s'
  | CombinedSel a, CombinedSel b =>
      selector1 a = selector1 b /\ combinator a = combinator b
      /\ selector2 a = selector2 b
  | _, _ => False
  end.

(** [h'] has every cell of [h], up to [order]. *)
Definition store_le (h h' : heap) : Prop :=
  forall (l : loc) (c : cell),
    h !! l = Some c -> exists c', h' !! l = Some c' /\ same_text c c'.

(** The state a valid chain [calls] leads to: every group holds its tokens
    in call order, and the last rank is that of the last call. *)
Definition view_of (calls : list call) : view :=
  View (join (tokens (of_category Element calls)))
       (join (tokens (of_category Id calls)))
       (tokens (of_category Class calls))
       (tokens (of_category Attr calls))
       (tokens (of_category PseudoClass calls))
       (join (tokens (of_category PseudoElement calls)))
       (List.last (List.map (fun x => rank (category_of x)) calls) 0).

(** ** Chains the code accepts

    The uniqueness guard looks at the stored text, and [element] stores its
    value undecorated: an element call is refused only after an element
    call with a non-empty value. *)
Definition element_rule (calls : list call) : bool :=
  List.forallb (fun x => is_empty (value_of x))
    (List.removelast (of_category Element calls)).

Definition accepted_chain (calls : list call) : bool :=
  nondecreasing (List.map (fun x => rank (category_of x)) calls)
  && element_rule calls
  && at_most_once Id calls
  && at_most_once PseudoElement calls.

(** ** The last rank and the parts present

    The rank a simple selector holds is at least the rank of every part it
    has. *)
Definition rank_covers_parts (f : view) : bool :=
  (is_empty (v_element f) || Nat.leb 1 (v_order f))
  && (is_empty (v_id f) || Nat.leb 2 (v_order f))
  && (Nat.eqb (List.length (v_classes f)) 0 || Nat.leb 3 (v_order f))
  && (Nat.eqb (List.length (v_attrs f)) 0 || Nat.leb 4 (v_order f))
  && (Nat.eqb (List.length (v_pseudoClasses f)) 0 || Nat.leb 5 (v_order f))
  && (is_empty (v_pseudoElement f) || Nat.leb 6 (v_order f))
  && Nat.leb (v_order f) 6.

(** ** Well-formed stores *)

Definition is_array (h : heap) (l : loc) : bool :=
  match h !! l with Some (Array _) => true | _ => false end.

Definition is_selector (h : heap) (l : loc) : bool :=
  match h !! l with
  | Some (SimpleSel _) | Some (CombinedSel _) => true
  | _ => false
  end.

(** The cell [c] at location [l]: the three array properties of a simple
    selector point to arrays; the two children of a combined selector are
    selectors at smaller locations. *)
Definition cell_ok (h : heap) (l : loc) (c : cell) : bool :=
  match c with
  | Array _ => true
  | SimpleSel s =>
      is_array h (classValues s) && is_array h (attrValues s)
      && is_array h (pseudoClassValues s)
  | CombinedSel c =>
      Nat.ltb (selector1 c) l && Nat.ltb (selector2 c) l
      && is_selector h (selector1 c) && is_selector h (selector2 c)
  end.

Fixpoint cells_ok (h : heap) (l : loc) (cells : list cell) : bool :=
  match cells with
  | [] => true
  | c :: rest => cell_ok h l c && cells_ok h (S l) rest
  end.

Definition well_formed (h : heap) : bool := cells_ok h 0 h.

(** ** Symbolic evaluation of the store primitives

    The store is kept in the shape [h ++ t]: an arbitrary old part [h] and
    an explicit list [t] of the cells allocated since, so that a new
    location reads [length h + k] for a literal [k]. *)

Section Primitives.

Implicit Types (h t : heap) (l k : loc) (c : cell).

Lemma bind_ok {A B} (m : M A) (k : A -> M B) h a h' :
  m h = (Ok a, h') -> bind m k h = k a h'.
Proof. unfold bind. now intros ->. Qed.

Lemma bind_throw {A B} (m : M A) (k : A -> M B) h e h' :
  m h = (Throw e, h') -> bind m k h = (Throw e, h').
Proof. unfold bind. now intros ->. Qed.

Lemma alloc_app h t c :
  alloc c (h ++ t) = (Ok (List.length h + List.length t), h ++ (t ++ [c])).
Proof. unfold alloc. now rewrite length_app, app_assoc. Qed.

Lemma lookup_new h t k : (h ++ t) !! (List.length h + k) = t !! k.
Proof.
  rewrite lookup_app_r by lia.
  now replace (List.length h + k - List.length h) with k by lia.
Qed.

Lemma load_old h t l c :
  h !! l = Some c -> load l (h ++ t) = (Ok c, h ++ t).
Proof.
  intros Hl. unfold load. now rewrite (lookup_app_l_Some _ _ _ _ Hl).
Qed.

Lemma load_new h t k c :
  t !! k = Some c -> load (List.length h + k) (h ++ t) = (Ok c, h ++ t).
Proof. intros Hk. unfold load. now rewrite lookup_new, Hk. Qed.

Lemma store_new h t k c :
  store (List.length h + k) c (h ++ t) = (Ok tt, h ++ <[k := c]> t).
Proof. unfold store. now rewrite insert_app_r. Qed.

Lemma assign_new h t k f s :
  t !! k = Some (SimpleSel s) ->
  assign (List.length h + k) f (h ++ t) =
  (Ok tt, h ++ <[k := SimpleSel (f s)]> t).
Proof.
  intros Hk. unfold assign.
  rewrite (bind_ok _ _ _ _ _ (load_new h t k _ Hk)). apply store_new.
Qed.

Lemma read_array_old h t l items :
  h !! l = Some (Array items) -> read_array l (h ++ t) = (Ok items, h ++ t).
Proof.
  intros Hl. unfold read_array.
  now rewrite (bind_ok _ _ _ _ _ (load_old h t l _ Hl)).
Qed.

Lemma push_new h t k x items :
  t !! k = Some (Array items) ->
  push (List.length h + k) x (h ++ t) =
  (Ok tt, h ++ <[k := Array (items ++ [x])]> t).
Proof.
  intros Hk. unfold push, read_array.
  rewrite (bind_ok _ _ _ _ _
             (bind_ok _ _ _ _ _ (load_new h t k _ Hk) : _ = ret items _)).
  apply store_new.
Qed.

Lemma push_to_new h t k k' field x s items :
  t !! k = Some (SimpleSel s) ->
  field s = List.length h + k' ->
  t !! k' = Some (Array items) ->
  Selector.push_to field (List.length h + k) x (h ++ t) =
  (Ok tt, h ++ <[k' := Array (items ++ [x])]> t).
Proof.
  intros Hk Hf Hk'. unfold Selector.push_to.
  rewrite (bind_ok _ _ _ _ _ (load_new h t k _ Hk)), Hf.
  now apply push_new.
Qed.

(** [new Selector()] *)
Lemma constructor_empty h t :
  Selector.constructor None None None (h ++ t) =
  (Ok (List.length h + (List.length t + 3)),
   h ++ (t ++ [Array []; Array []; Array [];
               SimpleSel (Simple "" "" (List.length h + List.length t)
                            (List.length h + (List.length t + 1))
                            (List.length h + (List.length t + 2)) "" 0)])).
Proof.
  unfold Selector.constructor, Selector.combined_arguments. cbn [of_option truthy andb].
  rewrite (bind_ok _ _ _ _ _ (alloc_app h t _)).
  rewrite (bind_ok _ _ _ _ _ (alloc_app h _ _)).
  rewrite (bind_ok _ _ _ _ _ (alloc_app h _ _)).
  rewrite alloc_app, !length_app. cbn [List.length].
  rewrite <- !app_assoc. cbn [app].
  now replace (List.length t + 1 + 1) with (List.length t + 2) by lia;
    replace (List.length t + 2 + 1) with (List.length t + 3) by lia.
Qed.

(** The two branches of the constructor as [combine] reaches them. *)
Lemma combine_truthy h l1 l2 symbol :
  truthy (VString symbol) = true ->
  cssSelectorBuilder.combine l1 symbol l2 h =
  (Ok (List.length h), h ++ [CombinedSel (Combined l1 symbol l2 None)]).
Proof.
  intros Hs. unfold cssSelectorBuilder.combine, Selector.constructor,
    Selector.combined_arguments.
  cbn [of_option]. rewrite Hs. reflexivity.
Qed.

Lemma combine_falsy h l1 l2 symbol :
  truthy (VString symbol) = false ->
  cssSelectorBuilder.combine l1 symbol l2 h =
  Selector.constructor None None None h.
Proof.
  intros Hs. unfold cssSelectorBuilder.combine, Selector.constructor,
    Selector.combined_arguments.
  cbn [of_option]. rewrite Hs. reflexivity.
Qed.

Lemma ensureOrder_spec h this s n :
  h !! this = Some (SimpleSel s) ->
  Selector.ensureOrder n this h =
  if Nat.ltb n (order s) then (Throw (Error order_message), h)
  else (Ok tt, marked n this s h).
Proof.
  intros Hthis. unfold Selector.ensureOrder, bind, load. rewrite Hthis.
  now destruct (Nat.ltb n (order s)).
Qed.

Lemma ensureSingle_spec h this c fieldName :
  h !! this = Some c ->
  Selector.ensureSingle fieldName this h =
  if truthy (get_property fieldName c) then (Throw (Error single_message), h)
  else (Ok tt, h).
Proof.
  intros Hthis. unfold Selector.ensureSingle, bind, load. rewrite Hthis.
  now destruct (truthy (get_property fieldName c)).
Qed.

Lemma length_marked n this s h : List.length (marked n this s h) = List.length h.
Proof. apply length_insert. Qed.

Lemma marked_this n this s h :
  h !! this = Some (SimpleSel s) ->
  marked n this s h !! this = Some (SimpleSel (set_order n s)).
Proof.
  intros Hthis. apply list_lookup_insert_eq.
  now apply lookup_lt_Some in Hthis.
Qed.

Lemma marked_other n this s h l :
  l <> this -> marked n this s h !! l = h !! l.
Proof. intros Hne. now apply list_lookup_insert_ne. Qed.

Lemma marked_array n this s h l items :
  h !! this = Some (SimpleSel s) ->
  h !! l = Some (Array items) ->
  marked n this s h !! l = Some (Array items).
Proof.
  intros Hthis Hl. rewrite marked_other; [assumption|]. congruence.
Qed.

End Primitives.

#[global] Opaque alloc load store assign read_array push bind
  Selector.constructor Selector.push_to Selector.ensureOrder
  Selector.ensureSingle.
Arguments marked : simpl never.

(** One step of a computation on a store of the shape [h ++ t]. *)
Ltac js_one :=
  lazymatch goal with
  | |- bind ?m ?k (?h ++ ?t) = _ =>
      erewrite (bind_ok m k (h ++ t));
      [ | first
            [ apply alloc_app
            | apply constructor_empty
            | apply assign_new; reflexivity
            | eapply push_to_new; [reflexivity | simpl; reflexivity | reflexivity]
            | apply read_array_old; eassumption
            | apply load_old; eassumption
            | apply load_new; reflexivity
            | apply store_new ] ];
      simpl
  end.

Section Methods.

Variables (h : heap) (this : loc) (s : simple) (cs ats pcs : list string).
Hypothesis Hthis : h !! this = Some (SimpleSel s).
Hypothesis Hcs : h !! classValues s = Some (Array cs).
Hypothesis Hats : h !! attrValues s = Some (Array ats).
Hypothesis Hpcs : h !! pseudoClassValues s = Some (Array pcs).

Lemma clone_spec :
  Selector.clone this h =
  (Ok (List.length h + 3),
   h ++ [Array []; Array []; Array [];
         SimpleSel (Simple (elementValue s) (idValue s) (List.length h + 4)
                      (List.length h + 5) (List.length h + 6)
                      (pseudoElementValue s) (order s));
         Array cs; Array ats; Array pcs]).
Proof.
  rewrite <- (app_nil_r h) at 1.
  unfold Selector.clone.
  repeat js_one.
  reflexivity.
Qed.

End Methods.

(** The equations of the six category methods on a simple selector whose
    three arrays are in the store. *)
Section MethodEquations.

Variables (h : heap) (this : loc) (s : simple) (cs ats pcs : list string).
Hypothesis Hthis : h !! this = Some (SimpleSel s).
Hypothesis Hcs : h !! classValues s = Some (Array cs).
Hypothesis Hats : h !! attrValues s = Some (Array ats).
Hypothesis Hpcs : h !! pseudoClassValues s = Some (Array pcs).

(** The order guard, then [clone] on the marked store, then the writes to
    the copy. *)
Ltac js_guard n :=
  let Ho := fresh "Ho" in
  pose proof (ensureOrder_spec _ _ _ n Hthis) as Ho;
  destruct (Nat.ltb n (order s));
  [ now rewrite (bind_throw _ _ _ _ _ Ho)
  | rewrite (bind_ok _ _ _ _ _ Ho) ].

Ltac js_clone n :=
  let Hthis' := fresh "Hthis'" in
  pose proof (marked_this n _ _ _ Hthis) as Hthis';
  erewrite bind_ok;
  [ | eapply clone_spec;
      [ exact Hthis' | simpl; eapply marked_array; eassumption .. ] ];
  simpl; repeat js_one;
  unfold extended; simpl; rewrite !length_marked; reflexivity.

Ltac js_single n :=
  let Hs := fresh "Hs" in
  match goal with
  | |- bind (Selector.ensureSingle ?f _) _ _ = _ =>
      pose proof (ensureSingle_spec _ _ _ f (marked_this n _ _ _ Hthis)) as Hs
  end;
  simpl in Hs;
  match type of Hs with
  | _ = if negb (is_empty ?v) then _ else _ =>
      destruct (is_empty v); simpl in Hs |- *
  end;
  [ rewrite (bind_ok _ _ _ _ _ Hs) | now rewrite (bind_throw _ _ _ _ _ Hs) ].

Lemma element_spec value :
  Selector.element value this h =
  if Nat.ltb 1 (order s) then (Throw (Error order_message), h)
  else if is_empty (elementValue s)
  then (Ok (List.length h + 3),
        extended h this s (set_order 1 (set_elementValue value s)) cs ats pcs)
  else (Throw (Error single_message), marked 1 this s h).
Proof. unfold Selector.element. js_guard 1. js_single 1. js_clone 1. Qed.

Lemma id_spec value :
  Selector.id value this h =
  if Nat.ltb 2 (order s) then (Throw (Error order_message), h)
  else if is_empty (idValue s)
  then (Ok (List.length h + 3),
        extended h this s (set_order 2 (set_idValue ("#" +:+ value) s))
          cs ats pcs)
  else (Throw (Error single_message), marked 2 this s h).
Proof. unfold Selector.id. js_guard 2. js_single 2. js_clone 2. Qed.

Lemma class_spec value :
  Selector.class value this h =
  if Nat.ltb 3 (order s) then (Throw (Error order_message), h)
  else (Ok (List.length h + 3),
        extended h this s (set_order 3 s) (cs ++ ["." +:+ value]) ats pcs).
Proof. unfold Selector.class. js_guard 3. js_clone 3. Qed.

Lemma attr_spec value :
  Selector.attr value this h =
  if Nat.ltb 4 (order s) then (Throw (Error order_message), h)
  else (Ok (List.length h + 3),
        extended h this s (set_order 4 s) cs
          (ats ++ ["[" +:+ value +:+ "]"]) pcs).
Proof. unfold Selector.attr. js_guard 4. js_clone 4. Qed.

Lemma pseudoClass_spec value :
  Selector.pseudoClass value this h =
  if Nat.ltb 5 (order s) then (Throw (Error order_message), h)
  else (Ok (List.length h + 3),
        extended h this s (set_order 5 s) cs ats (pcs ++ [":" +:+ value])).
Proof. unfold Selector.pseudoClass. js_guard 5. js_clone 5. Qed.

Lemma pseudoElement_spec value :
  Selector.pseudoElement value this h =
  if Nat.ltb 6 (order s) then (Throw (Error order_message), h)
  else if is_empty (pseudoElementValue s)
  then (Ok (List.length h + 3),
        extended h this s
          (set_order 6 (set_pseudoElementValue ("::" +:+ value) s))
          cs ats pcs)
  else (Throw (Error single_message), marked 6 this s h).
Proof.
  unfold Selector.pseudoElement. js_guard 6. js_single 6. js_clone 6.
Qed.

End MethodEquations.

(** ** Strings and [join] *)

Lemma append_empty_r (s : string) : s +:+ "" = s.
Proof.
  induction s as [|a s IH]; [reflexivity|].
  change (String a (s +:+ "") = String a s). now rewrite IH.
Qed.

Lemma append_assoc (a b c : string) : (a +:+ b) +:+ c = a +:+ (b +:+ c).
Proof.
  induction a as [|x a IH]; [reflexivity|].
  change (String x ((a +:+ b) +:+ c) = String x (a +:+ (b +:+ c))).
  now rewrite IH.
Qed.

Lemma join_cons (x : string) (xs : list string) :
  join (x :: xs) = x +:+ join xs.
Proof.
  unfold join. destruct xs as [|y ys]; simpl.
  - now rewrite append_empty_r.
  - reflexivity.
Qed.

Lemma join_app (xs ys : list string) :
  join (xs ++ ys) = join xs +:+ join ys.
Proof.
  induction xs as [|x xs IH].
  - reflexivity.
  - rewrite <- app_comm_cons, !join_cons, IH. now rewrite append_assoc.
Qed.

(** ** Observations *)

Lemma observe_Some (h : heap) (this : loc) (f : view) :
  observe this h = Some f <->
  exists s,
    h !! this = Some (SimpleSel s)
    /\ h !! classValues s = Some (Array (v_classes f))
    /\ h !! attrValues s = Some (Array (v_attrs f))
    /\ h !! pseudoClassValues s = Some (Array (v_pseudoClasses f))
    /\ elementValue s = v_element f /\ idValue s = v_id f
    /\ pseudoElementValue s = v_pseudoElement f /\ order s = v_order f.
Proof.
  unfold observe. split.
  - destruct (h !! this) as [[| s |]|]; try discriminate.
    destruct (h !! classValues s) as [[cs| |]|] eqn:Hcs; try discriminate.
    destruct (h !! attrValues s) as [[ats| |]|] eqn:Hats; try discriminate.
    destruct (h !! pseudoClassValues s) as [[pcs| |]|] eqn:Hpcs;
      try discriminate.
    intros [= <-]. exists s. simpl. repeat split; assumption || reflexivity.
  - intros (s & -> & -> & -> & -> & He & Hi & Hp & Ho).
    destruct f; simpl in *. now subst.
Qed.

Lemma observe_bound (h : heap) (this : loc) (f : view) :
  observe this h = Some f -> this < List.length h.
Proof.
  intros (s & Hthis & _)%observe_Some. now apply lookup_lt_Some in Hthis.
Qed.

(** [stringify] on a simple selector gives the text of its state. *)
Lemma stringify_observe (h : heap) (this : loc) (f : view) :
  observe this h = Some f ->
  Selector.stringify this h = Some (Ok (render f)).
Proof.
  intros Hf. pose proof (observe_bound _ _ _ Hf) as Hlt.
  apply observe_Some in Hf
    as (s & Hthis & Hcs & Hats & Hpcs & He & Hi & Hp & _).
  unfold Selector.stringify. destruct (List.length h) as [|n]; [lia|].
  simpl. rewrite Hthis, Hcs, Hats, Hpcs. unfold render.
  now rewrite He, Hi, Hp.
Qed.

(** ** Order between stores *)

Lemma same_text_refl (c : cell) : same_text c c.
Proof. destruct c; simpl; auto. Qed.

Lemma same_text_trans (a b c : cell) :
  same_text a b -> same_text b c -> same_text a c.
Proof.
  destruct a, b, c; simpl; try tauto; try congruence.
  intros (-> & -> & ->) (-> & -> & ->). auto.
Qed.

Lemma store_le_refl (h : heap) : store_le h h.
Proof. intros l c Hl. exists c. split; [assumption | apply same_text_refl]. Qed.

Lemma store_le_trans (h1 h2 h3 : heap) :
  store_le h1 h2 -> store_le h2 h3 -> store_le h1 h3.
Proof.
  intros H12 H23 l c Hl.
  destruct (H12 l c Hl) as (c2 & Hl2 & Hs2).
  destruct (H23 l c2 Hl2) as (c3 & Hl3 & Hs3).
  exists c3. split; [assumption | eapply same_text_trans; eassumption].
Qed.

Lemma store_le_app (h t : heap) : store_le h (h ++ t).
Proof.
  intros l c Hl. exists c. split; [| apply same_text_refl].
  now apply lookup_app_l_Some.
Qed.

Lemma store_le_marked (h : heap) (this : loc) (s : simple) (n : nat) :
  h !! this = Some (SimpleSel s) -> store_le h (marked n this s h).
Proof.
  intros Hthis l c Hl. destruct (Nat.eq_dec l this) as [-> | Hne].
  - exists (SimpleSel (set_order n s)). split.
    + now apply marked_this.
    + rewrite Hthis in Hl. injection Hl as <-. reflexivity.
  - exists c. split; [| apply same_text_refl]. now rewrite marked_other.
Qed.

Lemma store_le_length (h h' : heap) :
  store_le h h' -> List.length h <= List.length h'.
Proof.
  intros Hle. destruct (List.length h) as [|n] eqn:Hn; [lia|].
  destruct (lookup_lt_is_Some_2 h n) as [c Hc]; [lia|].
  destruct (Hle n c Hc) as (c' & Hc' & _).
  apply lookup_lt_Some in Hc'. lia.
Qed.

Lemma marked_same (h : heap) (this : loc) (s : simple) :
  h !! this = Some (SimpleSel s) -> marked (order s) this s h = h.
Proof.
  intros Hthis. unfold marked. apply list_insert_id.
  rewrite Hthis. now destruct s.
Qed.

(** ** [stringify] and growing stores *)

(** More fuel does not change a result. *)
Lemma stringify_fuel_mono (h : heap) (n m : nat) (this : loc)
    (r : outcome string) :
  n <= m ->
  Selector.stringify_fuel n this h = Some r ->
  Selector.stringify_fuel m this h = Some r.
Proof.
  revert m this r. induction n as [|n IH]; intros m this r Hnm Hr.
  { discriminate. }
  destruct m as [|m]; [lia|]. simpl in *.
  destruct (h !! this) as [[| s | c]|]; try assumption.
  destruct (Selector.stringify_fuel n (selector1 c) h) as [[s1|e]|] eqn:H1;
    try discriminate.
  - rewrite (IH m _ _ ltac:(lia) H1).
    destruct (Selector.stringify_fuel n (selector2 c) h) as [[s2|e]|] eqn:H2;
      try discriminate; now rewrite (IH m _ _ ltac:(lia) H2).
  - now rewrite (IH m _ _ ltac:(lia) H1).
Qed.

(** A text obtained in [h] is obtained in every store above [h]. *)
Lemma stringify_fuel_le (h h' : heap) (n : nat) (this : loc) (text : string) :
  store_le h h' ->
  Selector.stringify_fuel n this h = Some (Ok text) ->
  Selector.stringify_fuel n this h' = Some (Ok text).
Proof.
  intros Hle. revert this text.
  induction n as [|n IH]; intros this text Hr; [discriminate|].
  simpl in *.
  destruct (h !! this) as [c|] eqn:Hthis; [|discriminate].
  destruct (Hle _ _ Hthis) as (c' & -> & Hsame).
  destruct c as [| s | c], c' as [| s' | c']; simpl in Hsame;
    try contradiction; try discriminate.
  - destruct s as [e i cl al pl pe o], s' as [e' i' cl' al' pl' pe' o'].
    simpl in *. injection Hsame as <- <- <- <- <- <-.
    destruct (h !! cl) as [[cs| |]|] eqn:Hcs; try discriminate.
    destruct (Hle _ _ Hcs) as ([| |] & -> & Hcs'); simpl in Hcs';
      try contradiction; subst.
    destruct (h !! al) as [[ats| |]|] eqn:Hats; try discriminate.
    destruct (Hle _ _ Hats) as ([| |] & -> & Hats'); simpl in Hats';
      try contradiction; subst.
    destruct (h !! pl) as [[pcs| |]|] eqn:Hpcs;
      try discriminate.
    destruct (Hle _ _ Hpcs) as ([| |] & -> & Hpcs'); simpl in Hpcs';
      try contradiction; subst.
    assumption.
  - destruct Hsame as (<- & <- & <-).
    destruct (Selector.stringify_fuel n (selector1 c) h) as [[s1|e]|] eqn:H1;
      try discriminate.
    rewrite (IH _ _ H1).
    destruct (Selector.stringify_fuel n (selector2 c) h) as [[s2|e]|] eqn:H2;
      try discriminate.
    now rewrite (IH _ _ H2).
Qed.

Lemma stringify_le (h h' : heap) (this : loc) (text : string) :
  store_le h h' ->
  Selector.stringify this h = Some (Ok text) ->
  Selector.stringify this h' = Some (Ok text).
Proof.
  intros Hle Hr. unfold Selector.stringify in *.
  apply (stringify_fuel_mono h' (List.length h)).
  - now apply store_le_length.
  - now apply (stringify_fuel_le h).
Qed.

(** [stringify] on the selector that [combine] has just allocated. *)
Lemma stringify_combined (h : heap) (c : combined) (s1 s2 : string) :
  Selector.stringify (selector1 c) h = Some (Ok s1) ->
  Selector.stringify (selector2 c) h = Some (Ok s2) ->
  Selector.stringify (List.length h) (h ++ [CombinedSel c]) =
  Some (Ok (s1 +:+ " " +:+ combinator c +:+ " " +:+ s2)).
Proof.
  intros H1 H2. unfold Selector.stringify in *.
  rewrite length_app. simpl List.length.
  replace (List.length h + 1) with (S (List.length h)) by lia.
  simpl. rewrite list_lookup_middle by reflexivity.
  rewrite (stringify_fuel_le _ _ _ _ _ (store_le_app h _) H1).
  now rewrite (stringify_fuel_le _ _ _ _ _ (store_le_app h _) H2).
Qed.

(** ** The stores a method leaves behind *)

Section Extended.

Variables (h : heap) (this : loc) (s next : simple).
Variables (cs ats pcs cs' ats' pcs' : list string).
Hypothesis Hthis : h !! this = Some (SimpleSel s).
Hypothesis Hcs : h !! classValues s = Some (Array cs).
Hypothesis Hats : h !! attrValues s = Some (Array ats).
Hypothesis Hpcs : h !! pseudoClassValues s = Some (Array pcs).

Lemma length_extended :
  List.length (extended h this s next cs' ats' pcs') = List.length h + 7.
Proof. unfold extended. rewrite length_app, length_marked. simpl. lia. Qed.

Lemma store_le_extended : store_le h (extended h this s next cs' ats' pcs').
Proof.
  eapply store_le_trans;
    [apply (store_le_marked _ _ _ (order next) Hthis) | apply store_le_app].
Qed.

(** The copy shows the parts written to it. *)
Lemma observe_extended_next :
  observe (List.length h + 3) (extended h this s next cs' ats' pcs') =
  Some (View (elementValue next) (idValue next) cs' ats' pcs'
          (pseudoElementValue next) (order next)).
Proof.
  unfold extended, observe.
  rewrite <- (length_marked (order next) this s h).
  rewrite lookup_new. simpl. now rewrite !lookup_new.
Qed.

(** The receiver shows what it showed, but for its [order]. *)
Lemma observe_marked (n : nat) :
  observe this (marked n this s h) =
  Some (View (elementValue s) (idValue s) cs ats pcs (pseudoElementValue s) n).
Proof.
  unfold observe. rewrite (marked_this _ _ _ _ Hthis). simpl.
  now rewrite !(marked_array _ _ _ _ _ _ Hthis) by eassumption.
Qed.

Lemma observe_app (t : heap) (l : loc) (f : view) :
  observe l h = Some f -> observe l (h ++ t) = Some f.
Proof.
  intros (s0 & H0 & H1 & H2 & H3 & He & Hi & Hp & Ho)%observe_Some.
  apply observe_Some. exists s0.
  repeat split; try assumption; now apply lookup_app_l_Some.
Qed.

End Extended.

Lemma observe_extended_this (h : heap) (this : loc) (s next : simple)
    (cs ats pcs cs' ats' pcs' : list string) :
  h !! this = Some (SimpleSel s) ->
  h !! classValues s = Some (Array cs) ->
  h !! attrValues s = Some (Array ats) ->
  h !! pseudoClassValues s = Some (Array pcs) ->
  observe this (extended h this s next cs' ats' pcs') =
  Some (View (elementValue s) (idValue s) cs ats pcs (pseudoElementValue s)
          (order next)).
Proof.
  intros Hthis Hcs Hats Hpcs. unfold extended.
  apply observe_app. now apply observe_marked.
Qed.

(** ** The three ways a category method ends

    On a simple selector in state [f], the method of category [c] throws
    the order error and leaves the store alone when its rank is below
    [v_order f]; otherwise it writes its rank into the receiver and then
    either throws the uniqueness error or returns a copy in the state
    [apply_call c value f]. *)
Lemma method_cases (c : category) (value : string) (this : loc) (h : heap)
    (f : view) :
  observe this h = Some f ->
  if Nat.ltb (rank c) (v_order f)
  then method c value this h = (Throw (Error order_message), h)
  else
    exists h',
      store_le h h'
      /\ observe this h' = Some (with_order (rank c) f)
      /\ if already_set c f
         then method c value this h = (Throw (Error single_message), h')
              /\ (v_order f = rank c -> h' = h)
         else method c value this h = (Ok (List.length h + 3), h')
              /\ observe (List.length h + 3) h' = Some (apply_call c value f)
              /\ List.length h' = List.length h + 7.
Proof.
  intros (s & Hthis & Hcs & Hats & Hpcs & He & Hi & Hp & Ho)%observe_Some.
  destruct f as [fe fi fcs fats fpcs fpe fo]. simpl in *. subst.
  destruct c; simpl rank; simpl method;
    [ rewrite (element_spec _ _ _ _ _ _ Hthis Hcs Hats Hpcs)
    | rewrite (id_spec _ _ _ _ _ _ Hthis Hcs Hats Hpcs)
    | rewrite (class_spec _ _ _ _ _ _ Hthis Hcs Hats Hpcs)
    | rewrite (attr_spec _ _ _ _ _ _ Hthis Hcs Hats Hpcs)
    | rewrite (pseudoClass_spec _ _ _ _ _ _ Hthis Hcs Hats Hpcs)
    | rewrite (pseudoElement_spec _ _ _ _ _ _ Hthis Hcs Hats Hpcs) ];
    match goal with |- context [Nat.ltb ?n (order s)] =>
      destruct (Nat.ltb n (order s)); [reflexivity|] end;
    unfold already_set; simpl;
    try match goal with |- context [is_empty ?v] =>
      destruct (is_empty v) eqn:Hempty; simpl end.
  all: eexists; split; [|split; [|split; [reflexivity|]]].
  all: try (intros <-; now apply marked_same).
  all: try (split; [apply observe_extended_next | apply length_extended]).
  all: try (now apply store_le_extended).
  all: try (now apply store_le_marked).
  all: try (now apply (observe_marked _ _ _ _ _ _ Hthis Hcs Hats Hpcs)).
  all: now rewrite
         (observe_extended_this _ _ _ _ _ _ _ _ _ _ Hthis Hcs Hats Hpcs).
Qed.

(** ** One method call, by outcome *)

Lemma method_order_error (c : category) (value : string) (this : loc)
    (h : heap) (f : view) :
  observe this h = Some f ->
  rank c < v_order f ->
  method c value this h = (Throw (Error order_message), h).
Proof.
  intros Hf Hlt. pose proof (method_cases c value this h f Hf) as H.
  destruct (Nat.ltb_spec (rank c) (v_order f)); [assumption | lia].
Qed.

Lemma method_single_error (c : category) (value : string) (this : loc)
    (h : heap) (f : view) :
  observe this h = Some f ->
  v_order f <= rank c ->
  already_set c f = true ->
  exists h',
    method c value this h = (Throw (Error single_message), h')
    /\ store_le h h'
    /\ observe this h' = Some (with_order (rank c) f)
    /\ (v_order f = rank c -> h' = h).
Proof.
  intros Hf Hle Hset. pose proof (method_cases c value this h f Hf) as H.
  destruct (Nat.ltb_spec (rank c) (v_order f)); [lia|].
  destruct H as (h' & Hh' & Hobs & H). rewrite Hset in H.
  exists h'. tauto.
Qed.

Lemma method_ok (c : category) (value : string) (this : loc) (h : heap)
    (f : view) :
  observe this h = Some f ->
  v_order f <= rank c ->
  already_set c f = false ->
  exists h',
    method c value this h = (Ok (List.length h + 3), h')
    /\ store_le h h'
    /\ observe this h' = Some (with_order (rank c) f)
    /\ observe (List.length h + 3) h' = Some (apply_call c value f)
    /\ List.length h' = List.length h + 7.
Proof.
  intros Hf Hle Hset. pose proof (method_cases c value this h f Hf) as H.
  destruct (Nat.ltb_spec (rank c) (v_order f)); [lia|].
  destruct H as (h' & Hh' & Hobs & H). rewrite Hset in H.
  exists h'. tauto.
Qed.

(** A successful call tells what the receiver allowed. *)
Lemma method_Ok_inv (c : category) (value : string) (this next : loc)
    (h h' : heap) (f : view) :
  observe this h = Some f ->
  method c value this h = (Ok next, h') ->
  store_le h h'
  /\ observe this h' = Some (with_order (rank c) f)
  /\ observe next h' = Some (apply_call c value f)
  /\ v_order f <= rank c /\ already_set c f = false.
Proof.
  intros Hf Hcall. pose proof (method_cases c value this h f Hf) as H.
  destruct (Nat.ltb_spec (rank c) (v_order f)); [congruence|].
  destruct H as (h1 & Hh1 & Hobs & H).
  destruct (already_set c f).
  - destruct H as [H _]. congruence.
  - destruct H as (H & Hnext & _). rewrite Hcall in H.
    injection H as -> ->. tauto.
Qed.

(** [new Selector()] on any store. *)
Lemma constructor_empty_observe (h : heap) :
  exists h',
    Selector.constructor None None None h = (Ok (List.length h + 3), h')
    /\ observe (List.length h + 3) h' = Some empty_view
    /\ store_le h h'.
Proof.
  eexists. split; [|split].
  - rewrite <- (app_nil_r h) at 1. apply constructor_empty.
  - simpl. unfold observe. rewrite lookup_new. simpl.
    now rewrite !lookup_new.
  - apply store_le_app.
Qed.

(** An entry point of the facade always returns. *)
Lemma entry_ok (c : category) (value : string) (h : heap) :
  exists this h',
    entry c value h = (Ok this, h')
    /\ observe this h' = Some (apply_call c value empty_view)
    /\ store_le h h'.
Proof.
  destruct (constructor_empty_observe h) as (h1 & Hnew & Hobs & Hle1).
  destruct (method_ok c value _ h1 empty_view Hobs) as
    (h' & Hcall & Hle & _ & Hnext & _).
  { simpl. lia. }
  { now destruct c. }
  exists (List.length h1 + 3), h'. split; [|split].
  - destruct c; simpl entry in *; simpl method in *;
      unfold cssSelectorBuilder.element, cssSelectorBuilder.id,
        cssSelectorBuilder.class, cssSelectorBuilder.attr,
        cssSelectorBuilder.pseudoClass, cssSelectorBuilder.pseudoElement;
      now rewrite (bind_ok _ _ _ _ _ Hnew).
  - assumption.
  - eapply store_le_trans; eassumption.
Qed.

(** ** Valid chains *)

Lemma nondecreasing_app_l (xs ys : list nat) :
  nondecreasing (xs ++ ys) = true -> nondecreasing xs = true.
Proof.
  induction xs as [|a [|b xs] IH]; try reflexivity.
  simpl. intros [Hab Hrest]%andb_true_iff.
  apply andb_true_iff. split; [assumption | now apply IH].
Qed.

Lemma nondecreasing_snoc (xs : list nat) (x : nat) :
  nondecreasing (xs ++ [x]) = true -> List.last xs 0 <= x.
Proof.
  induction xs as [|a [|b xs] IH].
  - simpl. lia.
  - simpl. intros [Hax _]%andb_true_iff. now apply Nat.leb_le.
  - intros [_ Hrest]%andb_true_iff. now apply IH.
Qed.

Lemma of_category_app (c : category) (p q : list call) :
  of_category c (p ++ q) = of_category c p ++ of_category c q.
Proof. apply List.filter_app. Qed.

Lemma tokens_app (p q : list call) : tokens (p ++ q) = tokens p ++ tokens q.
Proof. apply List.map_app. Qed.

Lemma at_most_once_app_l (c : category) (p q : list call) :
  at_most_once c (p ++ q) = true -> at_most_once c p = true.
Proof.
  unfold at_most_once. rewrite of_category_app, length_app.
  intros H%Nat.leb_le. apply Nat.leb_le. lia.
Qed.

Lemma valid_chain_app_l (p q : list call) :
  valid_chain (p ++ q) = true -> valid_chain p = true.
Proof.
  unfold valid_chain. rewrite List.map_app, !andb_true_iff.
  intros (((Hn & He) & Hi) & Hp). repeat split.
  - now apply nondecreasing_app_l in Hn.
  - now apply at_most_once_app_l in He.
  - now apply at_most_once_app_l in Hi.
  - now apply at_most_once_app_l in Hp.
Qed.

(** In a valid chain the last call meets a receiver that accepts it. *)
Lemma valid_chain_snoc (p : list call) (c : call) :
  valid_chain (p ++ [c]) = true ->
  v_order (view_of p) <= rank (category_of c)
  /\ already_set (category_of c) (view_of p) = false
  /\ apply_call (category_of c) (value_of c) (view_of p) = view_of (p ++ [c]).
Proof.
  unfold valid_chain. rewrite List.map_app, !andb_true_iff.
  intros (((Hn & He) & Hi) & Hp).
  apply nondecreasing_snoc in Hn.
  unfold at_most_once in He, Hi, Hp.
  rewrite of_category_app, length_app in He, Hi, Hp.
  apply Nat.leb_le in He, Hi, Hp.
  split; [exact Hn|].
  unfold view_of, already_set, apply_call.
  rewrite List.map_app. cbn [List.map].
  rewrite List.last_last, !of_category_app, !tokens_app.
  destruct c as [[] value]; simpl in *; rewrite ?app_nil_r;
    try (split; reflexivity).
  - destruct (of_category Element p); simpl in *; [|lia].
    split; reflexivity.
  - destruct (of_category Id p); simpl in *; [|lia].
    split; reflexivity.
  - destruct (of_category PseudoElement p); simpl in *; [|lia].
    split; reflexivity.
Qed.

(** Every call of a valid chain returns, and the chain ends in the state
    [view_of] describes. *)
Lemma chain_valid (rest p : list call) (h : heap) (this : loc) :
  observe this h = Some (view_of p) ->
  valid_chain (p ++ rest) = true ->
  exists s h',
    chain rest this h = (Ok s, h')
    /\ observe s h' = Some (view_of (p ++ rest))
    /\ store_le h h'.
Proof.
  revert p h this. induction rest as [|c rest IH]; intros p h this Hobs Hv.
  - exists this, h. rewrite app_nil_r. repeat split; try assumption.
    apply store_le_refl.
  - replace (p ++ c :: rest) with ((p ++ [c]) ++ rest) in *
      by now rewrite <- app_assoc.
    pose proof (valid_chain_app_l _ _ Hv) as Hc.
    apply valid_chain_snoc in Hc as (Hle & Hset & Hnext).
    destruct (method_ok _ (value_of c) _ _ _ Hobs Hle Hset)
      as (h1 & Hcall & Hle1 & _ & Hobs1 & _).
    rewrite Hnext in Hobs1.
    destruct (IH _ _ _ Hobs1 Hv) as (s & h' & Hrun & Hobs' & Hle').
    exists s, h'. repeat split; try assumption.
    + simpl. now rewrite (bind_ok _ _ _ _ _ Hcall).
    + eapply store_le_trans; eassumption.
Qed.

Lemma builder_chain_valid (first : call) (rest : list call) (h : heap) :
  valid_chain (first :: rest) = true ->
  exists s h',
    builder_chain first rest h = (Ok s, h')
    /\ observe s h' = Some (view_of (first :: rest))
    /\ store_le h h'.
Proof.
  intros Hv.
  destruct (entry_ok (category_of first) (value_of first) h)
    as (this & h1 & Hentry & Hobs & Hle1).
  pose proof (valid_chain_app_l [first] rest Hv) as Hfirst.
  apply (valid_chain_snoc []) in Hfirst as (_ & _ & Hview).
  change (view_of []) with empty_view in Hview. rewrite Hview in Hobs.
  destruct (chain_valid rest [first] h1 this Hobs Hv)
    as (s & h' & Hrun & Hobs' & Hle').
  exists s, h'. repeat split; try assumption.
  - unfold builder_chain. now rewrite (bind_ok _ _ _ _ _ Hentry).
  - eapply store_le_trans; eassumption.
Qed.

Lemma render_view_of (calls : list call) :
  render (view_of calls) = by_group calls.
Proof. reflexivity. Qed.

(** *** Group order is call order when ranks never go down *)

Lemma nondecreasing_cons (a : nat) (xs : list nat) :
  nondecreasing (a :: xs) = true ->
  nondecreasing xs = true /\ List.Forall (fun x => a <= x) xs.
Proof.
  revert a. induction xs as [|b xs IH]; intros a H.
  - split; [reflexivity | constructor].
  - simpl in H. apply andb_true_iff in H as [Hab%Nat.leb_le Hrest].
    split; [assumption|].
    constructor; [assumption|].
    destruct (IH b Hrest) as [_ Hall].
    eapply List.Forall_impl; [|exact Hall]. simpl. intros x Hx. lia.
Qed.

Lemma of_category_above (c : category) (n : nat) (calls : list call) :
  List.Forall (fun x => n <= x)
    (List.map (fun x => rank (category_of x)) calls) ->
  rank c < n ->
  of_category c calls = [].
Proof.
  intros Hall Hc. induction calls as [|x calls IH]; [reflexivity|].
  simpl in Hall. apply List.Forall_cons_iff in Hall as [Hx Hall].
  unfold of_category in *. simpl. unfold category_eqb at 1.
  destruct (Nat.eqb_spec (rank (category_of x)) (rank c)); [lia|].
  now apply IH.
Qed.

Lemma of_category_cons (c : category) (x : call) (calls : list call) :
  of_category c (x :: calls) =
  if category_eqb (category_of x) c then x :: of_category c calls
  else of_category c calls.
Proof. reflexivity. Qed.

Lemma by_group_in_call_order (calls : list call) :
  nondecreasing (List.map (fun x => rank (category_of x)) calls) = true ->
  by_group calls = in_call_order calls.
Proof.
  induction calls as [|x calls IH]; [reflexivity|].
  simpl List.map. intros [Hrest Hall]%nondecreasing_cons.
  unfold in_call_order in *. simpl tokens. rewrite join_cons, <- (IH Hrest).
  clear IH Hrest. unfold by_group.
  rewrite !of_category_cons.
  destruct x as [[] value]; simpl in Hall; cbn [category_eqb category_of rank Nat.eqb].
  all: rewrite ?(of_category_above Element _ _ Hall) by (simpl; lia).
  all: rewrite ?(of_category_above Id _ _ Hall) by (simpl; lia).
  all: rewrite ?(of_category_above Class _ _ Hall) by (simpl; lia).
  all: rewrite ?(of_category_above Attr _ _ Hall) by (simpl; lia).
  all: rewrite ?(of_category_above PseudoClass _ _ Hall) by (simpl; lia).
  all: simpl tokens; rewrite ?join_cons, ?append_assoc; reflexivity.
Qed.

(** ** Combined selectors *)

Lemma combinators_truthy (symbol : string) :
  List.In symbol combinators -> truthy (VString symbol) = true.
Proof.
  intros [<- | [<- | [<- | [<- | []]]]]; reflexivity.
Qed.

Lemma is_combinator_In (symbol : string) :
  is_combinator symbol = true -> List.In symbol combinators.
Proof.
  unfold is_combinator. intros (x & Hx & Heq)%List.existsb_exists.
  apply String.eqb_eq in Heq. now subst.
Qed.

(** One [combine] of two selectors whose text is known. *)
Lemma combine_step (h : heap) (l r : loc) (symbol sl sr : string) :
  truthy (VString symbol) = true ->
  Selector.stringify l h = Some (Ok sl) ->
  Selector.stringify r h = Some (Ok sr) ->
  exists c h',
    cssSelectorBuilder.combine l symbol r h = (Ok c, h')
    /\ Selector.stringify c h' =
       Some (Ok (sl +:+ " " +:+ symbol +:+ " " +:+ sr))
    /\ store_le h h'.
Proof.
  intros Hs Hl Hr.
  exists (List.length h), (h ++ [CombinedSel (Combined l symbol r None)]).
  split; [now apply combine_truthy | split].
  - now apply (stringify_combined h (Combined l symbol r None)).
  - apply store_le_app.
Qed.

(** Any depth: a valid expression builds, and the selector it builds
    prints the flattened text. *)
Lemma build_flattened (e : expression) (h : heap) :
  valid_expression e = true ->
  exists s h',
    build e h = (Ok s, h')
    /\ Selector.stringify s h' = Some (Ok (flattened e))
    /\ store_le h h'.
Proof.
  revert h. induction e as [first rest | lhs IHl symbol rhs IHr]; intros h Hv.
  - simpl in *.
    destruct (builder_chain_valid first rest h Hv) as (s & h' & Hrun & Hobs & Hle).
    exists s, h'. repeat split; try assumption.
    rewrite (stringify_observe _ _ _ Hobs), render_view_of.
    rewrite by_group_in_call_order; [reflexivity|].
    unfold valid_chain in Hv. now rewrite !andb_true_iff in Hv.
  - simpl in Hv. rewrite !andb_true_iff in Hv. destruct Hv as ((Hvl & Hs) & Hvr).
    destruct (IHl h Hvl) as (a & h1 & Ha & Hta & Hle1).
    destruct (IHr h1 Hvr) as (b & h2 & Hb & Htb & Hle2).
    pose proof (stringify_le _ _ _ _ Hle2 Hta) as Hta2.
    apply is_combinator_In, combinators_truthy in Hs.
    destruct (combine_step h2 a b symbol _ _ Hs Hta2 Htb)
      as (c & h' & Hc & Htc & Hle3).
    exists c, h'. repeat split; try assumption.
    + simpl. now rewrite (bind_ok _ _ _ _ _ Ha), (bind_ok _ _ _ _ _ Hb).
    + eapply store_le_trans; [|exact Hle3].
      eapply store_le_trans; eassumption.
Qed.

(** * Properties of the builder *)

(** C1.  A valid builder chain (ranks never go down; element, id and
    pseudo-element at most once), started at the facade on any store,
    returns a simple selector, and [stringify] on it returns the element
    text, the id token, the class tokens, the attribute tokens, the
    pseudo-class tokens and the pseudo-element token, concatenated with no
    separator, each group in insertion order; this is also the
    concatenation of the tokens in call order. *)
Theorem stringify_valid_chain (first : call) (rest : list call) (h : heap) :
  valid_chain (first :: rest) = true ->
  exists s h',
    builder_chain first rest h = (Ok s, h')
    /\ observe s h' = Some (view_of (first :: rest))
    /\ Selector.stringify s h' = Some (Ok (by_group (first :: rest)))
    /\ by_group (first :: rest) = in_call_order (first :: rest).
Proof.
  intros Hv.
  destruct (builder_chain_valid first rest h Hv) as (s & h' & Hrun & Hobs & _).
  exists s, h'. repeat split; try assumption.
  - now rewrite (stringify_observe _ _ _ Hobs), render_view_of.
  - apply by_group_in_call_order.
    unfold valid_chain in Hv. now rewrite !andb_true_iff in Hv.
Qed.

(** The chain of the specification:
    [element('div').id('main').class('a').class('b').attr('x')
     .pseudoClass('hover').pseudoElement('before')]. *)
Lemma stringify_valid_chain_witness :
  exists s h',
    builder_chain (Call Element "div")
      [Call Id "main"; Call Class "a"; Call Class "b"; Call Attr "x";
       Call PseudoClass "hover"; Call PseudoElement "before"] [] = (Ok s, h')
    /\ Selector.stringify s h' = Some (Ok "div#main.a.b[x]:hover::before").
Proof.
  destruct (stringify_valid_chain (Call Element "div")
      [Call Id "main"; Call Class "a"; Call Class "b"; Call Attr "x";
       Call PseudoClass "hover"; Call PseudoElement "before"] [] eq_refl)
    as (s & h' & Hrun & _ & Htext & _).
  exists s, h'. split; [exact Hrun | exact Htext].
Defined.

(** C2.  Stated: [a.op(v)] leaves [a] as it was.  The code does keep the
    stored parts of [a], but [ensureOrder] assigns to
    [this.order] before [clone] runs, so the last rank of the receiver is
    overwritten.  With [a = element('div')]: before [a.class('x')] the
    receiver shows rank 1 and accepts [id('main')]; after it the receiver
    shows rank 3 and the same [id('main')] throws the order error. *)
Theorem receiver_order_overwritten :
  exists a h1 b h2,
    cssSelectorBuilder.element "div" [] = (Ok a, h1)
    /\ observe a h1 = Some (View "div" "" [] [] [] "" 1)
    /\ (exists c h', Selector.id "main" a h1 = (Ok c, h'))
    /\ Selector.class "x" a h1 = (Ok b, h2)
    /\ observe a h2 = Some (View "div" "" [] [] [] "" 3)
    /\ Selector.id "main" a h2 = (Throw (Error order_message), h2).
Proof.
  do 4 eexists.
  split; [vm_compute; reflexivity|].
  split; [vm_compute; reflexivity|].
  split; [do 2 eexists; vm_compute; reflexivity|].
  split; [vm_compute; reflexivity|].
  split; vm_compute; reflexivity.
Qed.

(** What does hold for the receiver of a successful call: every stored
    part is kept, and the last rank becomes the rank of the method. *)
Lemma receiver_after_call (c : category) (value : string) (a b : loc)
    (h h' : heap) (f : view) :
  observe a h = Some f ->
  method c value a h = (Ok b, h') ->
  observe a h' = Some (with_order (rank c) f).
Proof. intros Hf Hcall. now apply (method_Ok_inv c value a b h h' f). Qed.

(** C3.  On a simple selector, a method whose rank is strictly below the
    rank the receiver holds throws the error with the order message and
    writes nothing.  Hence, after a call of category [c1] has returned
    [next], which then holds the rank of [c1], a call on [next] of any
    category [c2] of strictly smaller rank throws that error, whatever the
    values. *)
Theorem ordering_violation (h : heap) (this : loc) (f : view) :
  observe this h = Some f ->
  (forall (c : category) (value : string),
      rank c < v_order f ->
      method c value this h = (Throw (Error order_message), h))
  /\ (forall (c1 c2 : category) (v1 v2 : string) (next : loc) (h1 : heap),
         method c1 v1 this h = (Ok next, h1) ->
         rank c2 < rank c1 ->
         (exists g, observe next h1 = Some g /\ v_order g = rank c1)
         /\ method c2 v2 next h1 = (Throw (Error order_message), h1)).
Proof.
  intros Hf. split.
  - intros c value Hlt. now apply (method_order_error c value this h f).
  - intros c1 c2 v1 v2 next h1 Hcall Hlt.
    destruct (method_Ok_inv _ _ _ _ _ _ _ Hf Hcall) as (_ & _ & Hnext & _).
    assert (Ho : v_order (apply_call c1 v1 f) = rank c1) by now destruct c1.
    split; [now exists (apply_call c1 v1 f)|].
    apply (method_order_error _ _ _ _ _ Hnext). lia.
Qed.

(** [pseudoClass('hover')] on a new selector, then [class('x')]. *)
Lemma ordering_violation_witness :
  let h := snd (Selector.constructor None None None []) in
  let h1 := snd (Selector.pseudoClass "hover" 3 h) in
  Selector.pseudoClass "hover" 3 h = (Ok 7, h1)
  /\ Selector.class "x" 7 h1 = (Throw (Error order_message), h1).
Proof.
  intros h h1.
  assert (Hobs : observe 3 h = Some empty_view) by (vm_compute; reflexivity).
  assert (Hcall : method PseudoClass "hover" 3 h = (Ok 7, h1))
    by (vm_compute; reflexivity).
  split; [exact Hcall|].
  exact (proj2 (proj2 (ordering_violation h 3 empty_view Hobs)
                  PseudoClass Class "hover" "x" 7 h1 Hcall
                  ltac:(simpl; lia))).
Defined.

(** The same from the facade: [c1(v1).c2(v2)] with [rank c2 < rank c1]. *)
Lemma facade_ordering_violation (h : heap) (c1 c2 : category)
    (v1 v2 : string) :
  rank c2 < rank c1 ->
  exists next h1,
    entry c1 v1 h = (Ok next, h1)
    /\ method c2 v2 next h1 = (Throw (Error order_message), h1).
Proof.
  intros Hlt. destruct (entry_ok c1 v1 h) as (next & h1 & Hentry & Hobs & _).
  exists next, h1. split; [assumption|].
  apply (method_order_error _ _ _ _ _ Hobs). destruct c1; simpl in *; lia.
Qed.

(** C4 does not hold of the code.  [ensureSingle('elementValue')] is there
    to throw the "at most once" error on a second [element], and it tests
    the truthiness of the stored value; [element('')] stores the empty
    string, which is falsy, so the test misses it:
    [element('').element('x')] throws nothing and returns a selector that
    prints ["x"], where C4 and the message of [ensureSingle] itself ask for
    the uniqueness error. *)
Lemma element_empty_then_element :
  exists a h1 b h2,
    cssSelectorBuilder.element "" [] = (Ok a, h1)
    /\ Selector.element "x" a h1 = (Ok b, h2)
    /\ Selector.stringify b h2 = Some (Ok "x").
Proof.
  do 4 eexists.
  split; [vm_compute; reflexivity|].
  split; vm_compute; reflexivity.
Qed.

(** The two other categories that occur at most once do throw on the same
    input: [id('')] stores ["#"] and [pseudoElement('')] stores ["::"],
    which are truthy, so [id('').id('x')] and
    [pseudoElement('').pseudoElement('x')] end with the uniqueness error. *)
Lemma id_and_pseudoElement_empty_then_again :
  (exists a h1,
     cssSelectorBuilder.id "" [] = (Ok a, h1)
     /\ Selector.id "x" a h1 = (Throw (Error single_message), h1))
  /\ (exists a h1,
        cssSelectorBuilder.pseudoElement "" [] = (Ok a, h1)
        /\ Selector.pseudoElement "x" a h1
           = (Throw (Error single_message), h1)).
Proof.
  split; do 2 eexists; (split; vm_compute; reflexivity).
Qed.

(** Where the guard of [ensureSingle] fires.  For [id] and [pseudoElement]
    with any values, and for [element] when the first value is not the
    empty string: after a call of the category has returned [next], a
    second call of the same category on [next] throws the error with the
    uniqueness message. *)
Theorem uniqueness_violation (h h1 : heap) (this next : loc) (f : view)
    (c : category) (v1 v2 : string) :
  single c = true ->
  (c = Element -> v1 <> "") ->
  observe this h = Some f ->
  method c v1 this h = (Ok next, h1) ->
  method c v2 next h1 = (Throw (Error single_message), h1).
Proof.
  intros Hsingle Hv1 Hf Hcall.
  destruct (method_Ok_inv _ _ _ _ _ _ _ Hf Hcall) as (_ & _ & Hnext & _).
  assert (Ho : v_order (apply_call c v1 f) = rank c) by now destruct c.
  assert (Hset : already_set c (apply_call c v1 f) = true).
  { destruct c; try discriminate; try reflexivity.
    unfold already_set. simpl. destruct v1; [|reflexivity].
    now destruct Hv1. }
  destruct (method_single_error c v2 _ _ _ Hnext ltac:(lia) Hset)
    as (h' & Hthrow & _ & _ & Hsame).
  now rewrite <- (Hsame Ho) at 2.
Qed.

(** [element('a').element('b')] *)
Lemma uniqueness_violation_witness :
  let h := snd (Selector.constructor None None None []) in
  let h1 := snd (Selector.element "a" 3 h) in
  Selector.element "a" 3 h = (Ok 7, h1)
  /\ Selector.element "b" 7 h1 = (Throw (Error single_message), h1).
Proof.
  intros h h1.
  assert (Hobs : observe 3 h = Some empty_view) by (vm_compute; reflexivity).
  assert (Hcall : method Element "a" 3 h = (Ok 7, h1))
    by (vm_compute; reflexivity).
  split; [exact Hcall|].
  exact (uniqueness_violation h h1 3 7 empty_view Element "a" "b" eq_refl
           (fun _ => ltac:(discriminate)) Hobs Hcall).
Defined.

(** C5.  For selectors [l] and [r] that print [sl] and [sr], and a symbol
    among [' '], ['+'], ['~'] and ['>'], [combine(l, symbol, r)] returns a
    selector that prints [sl], a space, the symbol, a space, [sr]; with the
    space as symbol that is three spaces between the two sides; [l] and [r]
    print what they printed.  And an expression nested to any depth builds
    a selector that prints its flattened left-to-right text. *)
Theorem combine_stringify :
  (forall (h : heap) (l r : loc) (symbol sl sr : string),
      List.In symbol combinators ->
      Selector.stringify l h = Some (Ok sl) ->
      Selector.stringify r h = Some (Ok sr) ->
      exists c h',
        cssSelectorBuilder.combine l symbol r h = (Ok c, h')
        /\ Selector.stringify c h' =
           Some (Ok (sl +:+ " " +:+ symbol +:+ " " +:+ sr))
        /\ (symbol = " " ->
            Selector.stringify c h' = Some (Ok (sl +:+ "   " +:+ sr)))
        /\ Selector.stringify l h' = Some (Ok sl)
        /\ Selector.stringify r h' = Some (Ok sr))
  /\ (forall (e : expression) (h : heap),
         valid_expression e = true ->
         exists s h',
           build e h = (Ok s, h')
           /\ Selector.stringify s h' = Some (Ok (flattened e))).
Proof.
  split.
  - intros h l r symbol sl sr Hs%combinators_truthy Hl Hr.
    destruct (combine_step h l r symbol sl sr Hs Hl Hr)
      as (c & h' & Hc & Htc & Hle).
    exists c, h'. repeat split; try assumption.
    + intros ->. exact Htc.
    + now apply (stringify_le h).
    + now apply (stringify_le h).
  - intros e h Hv.
    destruct (build_flattened e h Hv) as (s & h' & Hb & Ht & _).
    now exists s, h'.
Qed.

(** The nested expression of the specification,
    [combine(combine(element('a'), '>', element('b')), '~', element('c'))],
    and [combine] with the space as symbol. *)
Lemma combine_stringify_witness :
  (exists s h',
      build (Combine (Combine (Compound (Call Element "a") []) ">"
                        (Compound (Call Element "b") []))
               "~" (Compound (Call Element "c") [])) [] = (Ok s, h')
      /\ Selector.stringify s h' = Some (Ok "a > b ~ c"))
  /\ (let h := snd ((cssSelectorBuilder.element "tr" ;;
                      cssSelectorBuilder.element "td") []) in
      exists c h',
        cssSelectorBuilder.combine 7 " " 18 h = (Ok c, h')
        /\ Selector.stringify c h' = Some (Ok "tr   td")).
Proof.
  split.
  - exact (proj2 combine_stringify
             (Combine (Combine (Compound (Call Element "a") []) ">"
                         (Compound (Call Element "b") []))
                "~" (Compound (Call Element "c") [])) [] eq_refl).
  - intros h.
    destruct (proj1 combine_stringify h 7 18 " " "tr" "td"
                (or_introl eq_refl) eq_refl eq_refl)
      as (c & h' & Hc & _ & Ht & _).
    exists c, h'. split; [exact Hc | exact (Ht eq_refl)].
Defined.

(** C6.  A successful category call on a simple selector [a] does not
    change what [a.stringify()] returns: it is the text of the parts of [a]
    before the call and after it. *)
Theorem stringify_unchanged_by_call (h h' : heap) (a b : loc) (f : view)
    (c : category) (value : string) :
  observe a h = Some f ->
  method c value a h = (Ok b, h') ->
  Selector.stringify a h' = Selector.stringify a h
  /\ Selector.stringify a h = Some (Ok (render f)).
Proof.
  intros Hf Hcall.
  pose proof (receiver_after_call _ _ _ _ _ _ _ Hf Hcall) as Hafter.
  rewrite (stringify_observe _ _ _ Hf), (stringify_observe _ _ _ Hafter).
  split; reflexivity.
Qed.

(** [const a = class('x'); const b = a.class('y');] then [a.stringify()]. *)
Lemma stringify_unchanged_by_call_witness :
  let h := snd (cssSelectorBuilder.class "x" []) in
  let h' := snd (Selector.class "y" 7 h) in
  Selector.class "y" 7 h = (Ok 14, h')
  /\ Selector.stringify 14 h' = Some (Ok ".x.y")
  /\ Selector.stringify 7 h' = Some (Ok ".x").
Proof.
  intros h h'.
  split; [vm_compute; reflexivity | split; [vm_compute; reflexivity|]].
  assert (Hobs : observe 7 h = Some (View "" "" [".x"] [] [] "" 3))
    by (vm_compute; reflexivity).
  assert (Hcall : method Class "y" 7 h = (Ok 14, h'))
    by (vm_compute; reflexivity).
  destruct (stringify_unchanged_by_call h h' 7 14 _ Class "y" Hobs Hcall)
    as [Hsame Hbefore].
  exact (eq_trans Hsame Hbefore).
Defined.

(** C8.  The rectangle made from [w] and [h] has [w] and [h] as [width] and
    [height], and [getArea] on it returns the product [w * h] of the two
    numbers. *)
Theorem rectangle_fields_and_area (w h : number) :
  width (Rectangle w h) = w
  /\ height (Rectangle w h) = h
  /\ getArea (Rectangle w h) = PrimFloat.mul w h.
Proof. repeat split. Qed.

(** [new Rectangle(10, 20)] of the documentation. *)
Example rectangle_10_20 :
  getArea (Rectangle 10%float 20%float) = 200%float.
Proof. reflexivity. Qed.

(** C9.  With a falsy combinator, [combine(l, symbol, r)] is
    [new Selector()]: it returns a new empty simple selector, which prints
    the empty string, and neither [l] nor [r] is stored in it. *)
Theorem combine_falsy_combinator (h : heap) (l r : loc) (symbol : string) :
  truthy (VString symbol) = false ->
  cssSelectorBuilder.combine l symbol r h =
  Selector.constructor None None None h
  /\ exists s h',
       cssSelectorBuilder.combine l symbol r h = (Ok s, h')
       /\ h' !! s =
          Some (SimpleSel (Simple "" "" (List.length h) (List.length h + 1)
                             (List.length h + 2) "" 0))
       /\ observe s h' = Some empty_view
       /\ Selector.stringify s h' = Some (Ok "").
Proof.
  intros Hs. pose proof (combine_falsy h l r symbol Hs) as Heq.
  split; [exact Heq|].
  destruct (constructor_empty_observe h) as (h' & Hnew & Hobs & _).
  exists (List.length h + 3), h'. rewrite Heq.
  split; [exact Hnew|]. split; [|split].
  - rewrite <- (app_nil_r h) in Hnew at 1.
    rewrite constructor_empty in Hnew. injection Hnew as <-.
    simpl. rewrite lookup_new. simpl.
    now rewrite !Nat.add_0_r.
  - exact Hobs.
  - exact (stringify_observe _ _ _ Hobs).
Qed.

(** [combine(element('a'), '', element('b'))] *)
Lemma combine_falsy_combinator_witness :
  let h := snd ((cssSelectorBuilder.element "a" ;;
                 cssSelectorBuilder.element "b") []) in
  exists s h',
    cssSelectorBuilder.combine 7 "" 18 h = (Ok s, h')
    /\ Selector.stringify s h' = Some (Ok "").
Proof.
  intros h.
  destruct (combine_falsy_combinator h 7 18 "" eq_refl)
    as (_ & s & h' & Hc & _ & _ & Ht).
  exists s, h'. split; [exact Hc | exact Ht].
Defined.

(** C10.  In [element], [id] and [pseudoElement] the order guard runs
    first: when the category is already set and the receiver holds a rank
    above that of the category, the call throws the error with the order
    message, which is not the uniqueness message, and writes nothing. *)
Theorem order_error_before_uniqueness (h : heap) (this : loc) (f : view)
    (c : category) (value : string) :
  observe this h = Some f ->
  single c = true ->
  already_set c f = true ->
  rank c < v_order f ->
  method c value this h = (Throw (Error order_message), h)
  /\ order_message <> single_message.
Proof.
  intros Hf _ _ Hlt. split.
  - now apply (method_order_error c value this h f).
  - discriminate.
Qed.

(** [element('a').id('b')], then [element('c')] on it. *)
Lemma order_error_before_uniqueness_witness :
  let h := snd (builder_chain (Call Element "a") [Call Id "b"] []) in
  Selector.element "c" 14 h = (Throw (Error order_message), h).
Proof.
  intros h.
  assert (Hobs : observe 14 h = Some (View "a" "#b" [] [] [] "" 2))
    by (vm_compute; reflexivity).
  exact (proj1 (order_error_before_uniqueness h 14 _ Element "c"
                  Hobs eq_refl eq_refl ltac:(simpl; lia))).
Defined.

(** * Further properties of the builder *)

(** ** The store a method leaves, by shape *)

(** The store after a category method on a simple selector is the store
    before it, or that store with the receiver marked, or the marked store
    followed by the seven cells of the copy. *)
Lemma method_store (c : category) (value : string) (this : loc) (h : heap)
    (s : simple) (cs ats pcs : list string) :
  h !! this = Some (SimpleSel s) ->
  h !! classValues s = Some (Array cs) ->
  h !! attrValues s = Some (Array ats) ->
  h !! pseudoClassValues s = Some (Array pcs) ->
  snd (method c value this h) = h
  \/ snd (method c value this h) = marked (rank c) this s h
  \/ exists next cs' ats' pcs',
       order next = rank c
       /\ snd (method c value this h) = extended h this s next cs' ats' pcs'.
Proof.
  intros Hthis Hcs Hats Hpcs.
  destruct c; simpl rank; simpl method;
    [ rewrite (element_spec _ _ _ _ _ _ Hthis Hcs Hats Hpcs)
    | rewrite (id_spec _ _ _ _ _ _ Hthis Hcs Hats Hpcs)
    | rewrite (class_spec _ _ _ _ _ _ Hthis Hcs Hats Hpcs)
    | rewrite (attr_spec _ _ _ _ _ _ Hthis Hcs Hats Hpcs)
    | rewrite (pseudoClass_spec _ _ _ _ _ _ Hthis Hcs Hats Hpcs)
    | rewrite (pseudoElement_spec _ _ _ _ _ _ Hthis Hcs Hats Hpcs) ];
    match goal with |- context [Nat.ltb ?n (order s)] =>
      destruct (Nat.ltb n (order s)); [now left|] end;
    try match goal with |- context [is_empty ?v] =>
      destruct (is_empty v); [|now right; left] end;
    right; right; do 4 eexists; (split; [|reflexivity]); reflexivity.
Qed.

(** Cells other than the receiver are where they were, as they were. *)
Lemma method_other_cells (c : category) (value : string) (this : loc)
    (h : heap) (f : view) (l : loc) (x : cell) :
  observe this h = Some f ->
  l <> this ->
  h !! l = Some x ->
  snd (method c value this h) !! l = Some x.
Proof.
  intros (s & Hthis & Hcs & Hats & Hpcs & _)%observe_Some Hne Hl.
  destruct (method_store c value this h s _ _ _ Hthis Hcs Hats Hpcs)
    as [-> | [-> | (next & cs' & ats' & pcs' & _ & ->)]].
  - assumption.
  - now rewrite marked_other.
  - unfold extended. apply lookup_app_l_Some. now rewrite marked_other.
Qed.

(** The receiver stays a simple selector with the same parts and arrays. *)
Lemma method_receiver_cell (c : category) (value : string) (this : loc)
    (h : heap) (s : simple) (f : view) :
  observe this h = Some f ->
  h !! this = Some (SimpleSel s) ->
  exists n, snd (method c value this h) !! this = Some (SimpleSel (set_order n s)).
Proof.
  intros (s' & Hthis' & Hcs & Hats & Hpcs & _)%observe_Some Hthis.
  rewrite Hthis in Hthis'. injection Hthis' as <-.
  destruct (method_store c value this h s _ _ _ Hthis Hcs Hats Hpcs)
    as [-> | [-> | (next & cs' & ats' & pcs' & _ & ->)]].
  - exists (order s). rewrite Hthis. now destruct s.
  - exists (rank c). now apply marked_this.
  - exists (order next). unfold extended. apply lookup_app_l_Some.
    now apply marked_this.
Qed.

Lemma method_store_le (c : category) (value : string) (this : loc)
    (h : heap) (f : view) :
  observe this h = Some f -> store_le h (snd (method c value this h)).
Proof.
  intros Hf l x Hl. destruct (Nat.eq_dec l this) as [-> | Hne].
  - destruct x as [| s |];
      try (apply observe_Some in Hf as (s' & Hs' & _); congruence).
    destruct (method_receiver_cell c value this h s f Hf Hl) as [n Hn].
    exists (SimpleSel (set_order n s)). split; [assumption | reflexivity].
  - exists x. split; [| apply same_text_refl].
    now apply (method_other_cells c value this h f).
Qed.

Lemma method_Ok_fresh (c : category) (value : string) (this next : loc)
    (h h' : heap) (f : view) :
  observe this h = Some f ->
  method c value this h = (Ok next, h') ->
  next = List.length h + 3.
Proof.
  intros Hf Hcall. pose proof (method_cases c value this h f Hf) as H.
  destruct (Nat.ltb (rank c) (v_order f)); [congruence|].
  destruct H as (h1 & _ & _ & H). destruct (already_set c f).
  - destruct H as [H _]. congruence.
  - destruct H as (H & _). congruence.
Qed.

(** ** When a method returns, and what it throws *)

(** X1.  On a simple selector that holds rank [v_order f], the method of
    category [c] returns exactly when its rank is not below that rank and,
    for element, id and pseudo-element, the property it guards is falsy.
    When it throws, it throws [Error] with the order message (rank below)
    or with the uniqueness message (rank not below, property truthy), and
    nothing else. *)
Theorem method_outcome (c : category) (value : string) (this : loc)
    (h : heap) (f : view) :
  observe this h = Some f ->
  ((exists next h', method c value this h = (Ok next, h'))
   <-> v_order f <= rank c /\ already_set c f = false)
  /\ (forall (e : error) (h' : heap),
         method c value this h = (Throw e, h') ->
         (e = Error order_message /\ rank c < v_order f)
         \/ (e = Error single_message
             /\ v_order f <= rank c /\ already_set c f = true)).
Proof.
  intros Hf. pose proof (method_cases c value this h f Hf) as H.
  destruct (Nat.ltb_spec (rank c) (v_order f)) as [Hlt | Hle].
  - split.
    + split; [intros (next & h' & Hcall); congruence | lia].
    + intros e h' Hcall. left. split; [congruence | assumption].
  - destruct H as (h1 & _ & _ & H).
    destruct (already_set c f); [destruct H as [H _] | destruct H as [H _]].
    + split.
      * split; [intros (next & h' & Hcall); congruence | intros [_ ?]; discriminate].
      * intros e h' Hcall. right. split; [congruence | auto].
    + split.
      * split; [auto | intros _; eauto].
      * intros e h' Hcall. congruence.
Qed.

(** A new selector holds rank 0: [id('a')] returns, and on its result
    [element('b')] throws. *)
Lemma method_outcome_witness :
  let h := snd (Selector.constructor None None None []) in
  (exists next h', Selector.id "a" 3 h = (Ok next, h'))
  /\ forall e h',
       Selector.element "b" 7 (snd (Selector.id "a" 3 h)) = (Throw e, h') ->
       e = Error order_message.
Proof.
  intros h.
  assert (Hobs : observe 3 h = Some empty_view) by (vm_compute; reflexivity).
  assert (Hobs' : observe 7 (snd (Selector.id "a" 3 h))
                  = Some (View "" "#a" [] [] [] "" 2))
    by (vm_compute; reflexivity).
  split.
  - apply (proj1 (method_outcome Id "a" 3 h empty_view Hobs)).
    split; [simpl; lia | reflexivity].
  - intros e h' Hcall.
    destruct (proj2 (method_outcome Element "b" 7 _ _ Hobs') e h' Hcall)
      as [[He _] | [_ [Hle _]]]; [exact He | simpl in Hle; lia].
Defined.

(** ** What a call leaves alone *)

(** Another simple selector and its three arrays are cells other than the
    receiver. *)
Lemma observe_other (c : category) (value : string) (this l : loc)
    (h : heap) (f g : view) :
  observe this h = Some f ->
  observe l h = Some g ->
  l <> this ->
  observe l (snd (method c value this h)) = Some g.
Proof.
  intros Hf Hg Hne.
  pose proof Hf as (s & Hthis & _)%observe_Some.
  apply observe_Some in Hg as (sl & Hl & Hcs & Hats & Hpcs & Hrest).
  apply observe_Some. exists sl.
  repeat split; try apply Hrest;
    apply (method_other_cells c value this h f); try assumption; congruence.
Qed.

(** X2.  A category method called on one simple selector, whether it
    returns or throws, leaves every other simple selector of the store as
    it was: the same parts and the same last rank. *)
Theorem method_leaves_others (c : category) (value : string)
    (this l : loc) (h h' : heap) (f g : view) (r : outcome loc) :
  observe this h = Some f ->
  observe l h = Some g ->
  l <> this ->
  method c value this h = (r, h') ->
  observe l h' = Some g.
Proof.
  intros Hf Hg Hne Hcall.
  replace h' with (snd (method c value this h)) by now rewrite Hcall.
  now apply (observe_other c value this l h f g).
Qed.

(** [a = element('div')], [b = a.id('main')], then [b.class('x')]: [a] is
    as it was after the second call. *)
Lemma method_leaves_others_witness :
  let h := snd (builder_chain (Call Element "div") [Call Id "main"] []) in
  observe 7 (snd (Selector.class "x" 14 h)) = Some (View "div" "" [] [] [] "" 2).
Proof.
  intros h.
  assert (Hb : observe 14 h = Some (View "div" "#main" [] [] [] "" 2))
    by (vm_compute; reflexivity).
  assert (Ha : observe 7 h = Some (View "div" "" [] [] [] "" 2))
    by (vm_compute; reflexivity).
  exact (method_leaves_others Class "x" 14 7 h _ _ _ _ Hb Ha
           ltac:(discriminate) (surjective_pairing _)).
Defined.

Lemma chain_cons (c : call) (rest : list call) (this : loc) (h : heap) :
  chain (c :: rest) this h =
  match method (category_of c) (value_of c) this h with
  | (Ok next, h1) => chain rest next h1
  | (Throw e, h1) => (Throw e, h1)
  end.
Proof.
  simpl.
  destruct (method (category_of c) (value_of c) this h) as [[next | e] h1] eqn:H.
  - now rewrite (bind_ok _ _ _ _ _ H).
  - now rewrite (bind_throw _ _ _ _ _ H).
Qed.

(** X3.  A chain of calls started on a simple selector [this], however far
    it gets, leaves every other simple selector of the store as it was.
    So extending a selector that was derived from [l] never changes [l]. *)
Theorem chain_leaves_others (calls : list call) (this l : loc)
    (h h' : heap) (f g : view) (r : outcome loc) :
  observe this h = Some f ->
  observe l h = Some g ->
  l <> this ->
  chain calls this h = (r, h') ->
  observe l h' = Some g.
Proof.
  revert this h f. induction calls as [|c rest IH]; intros this h f Hf Hg Hne Hrun.
  - simpl in Hrun. injection Hrun as <- <-. assumption.
  - rewrite chain_cons in Hrun.
    destruct (method (category_of c) (value_of c) this h)
      as [[next | e] h1] eqn:Hcall.
    + pose proof (observe_other (category_of c) (value_of c) _ _ _ _ _
                    Hf Hg Hne) as Hg1.
      rewrite Hcall in Hg1. simpl in Hg1.
      destruct (method_Ok_inv _ _ _ _ _ _ _ Hf Hcall) as (_ & _ & Hnext & _).
      pose proof (method_Ok_fresh _ _ _ _ _ _ _ Hf Hcall) as Hfresh.
      pose proof (observe_bound _ _ _ Hg) as Hl.
      apply (IH next h1 _ Hnext Hg1); [lia | assumption].
    + injection Hrun as <- <-.
      pose proof (observe_other (category_of c) (value_of c) _ _ _ _ _
                    Hf Hg Hne) as Hg1.
      now rewrite Hcall in Hg1.
Qed.

(** [a = id('main')], then [a.class('x')] gives [b], then on [b] the chain
    [.class('y').attr('z').id('w')], which throws at its last call: [a]
    holds what it held. *)
Lemma chain_leaves_others_witness :
  let h := snd (builder_chain (Call Id "main") [Call Class "x"] []) in
  observe 7
    (snd (chain [Call Class "y"; Call Attr "z"; Call Id "w"] 14 h))
  = Some (View "" "#main" [] [] [] "" 3).
Proof.
  intros h.
  assert (Hb : observe 14 h = Some (View "" "#main" [".x"] [] [] "" 3))
    by (vm_compute; reflexivity).
  assert (Ha : observe 7 h = Some (View "" "#main" [] [] [] "" 3))
    by (vm_compute; reflexivity).
  exact (chain_leaves_others _ 14 7 h _ _ _ _ Hb Ha
           ltac:(discriminate) (surjective_pairing _)).
Defined.

(** X4.  No operation of the builder changes the text of a selector that
    is already in the store, simple or combined: not a category method on a
    simple selector (returning or throwing), not an entry point of the
    facade, not [combine]. *)
Theorem text_stable (h : heap) (s : loc) (text : string) :
  Selector.stringify s h = Some (Ok text) ->
  (forall (c : category) (value : string) (this : loc) (f : view)
          (r : outcome loc) (h' : heap),
      observe this h = Some f ->
      method c value this h = (r, h') ->
      Selector.stringify s h' = Some (Ok text))
  /\ (forall (c : category) (value : string) (r : outcome loc) (h' : heap),
         entry c value h = (r, h') ->
         Selector.stringify s h' = Some (Ok text))
  /\ (forall (l1 l2 : loc) (symbol : string) (r : outcome loc) (h' : heap),
         cssSelectorBuilder.combine l1 symbol l2 h = (r, h') ->
         Selector.stringify s h' = Some (Ok text)).
Proof.
  intros Ht. split; [|split].
  - intros c value this f r h' Hf Hcall.
    apply (stringify_le h); [|assumption].
    replace h' with (snd (method c value this h)) by now rewrite Hcall.
    now apply (method_store_le c value this h f).
  - intros c value r h' Hentry.
    destruct (entry_ok c value h) as (this & h1 & Hentry1 & _ & Hle).
    rewrite Hentry in Hentry1. injection Hentry1 as -> ->.
    now apply (stringify_le h).
  - intros l1 l2 symbol r h' Hc.
    apply (stringify_le h); [|assumption].
    destruct (truthy (VString symbol)) eqn:Hs.
    + rewrite (combine_truthy _ _ _ _ Hs) in Hc. injection Hc as <- <-.
      apply store_le_app.
    + rewrite (combine_falsy _ _ _ _ Hs) in Hc.
      destruct (constructor_empty_observe h) as (h1 & Hnew & _ & Hle).
      rewrite Hc in Hnew. now injection Hnew as -> ->.
Qed.

(** [c = combine(element('a'), '+', element('b'))], then
    [element('a')]'s selector is extended with [.id('x')]: [c] prints what
    it printed. *)
Lemma text_stable_witness :
  let h := snd (build (Combine (Compound (Call Element "a") []) "+"
                         (Compound (Call Element "b") [])) []) in
  Selector.stringify 22 (snd (Selector.id "x" 7 h)) = Some (Ok "a + b").
Proof.
  intros h.
  assert (Ht : Selector.stringify 22 h = Some (Ok "a + b"))
    by (vm_compute; reflexivity).
  assert (Hobs : observe 7 h = Some (View "a" "" [] [] [] "" 1))
    by (vm_compute; reflexivity).
  exact (proj1 (text_stable h 22 _ Ht) Id "x" 7 _ _ _ Hobs
           (surjective_pairing _)).
Defined.

(** ** Category methods on a combined selector *)

Section OnCombined.

Variables (h : heap) (this : loc) (c : combined).
Hypothesis Hthis : h !! this = Some (CombinedSel c).

Lemma ensureOrder_combined (n : nat) :
  Selector.ensureOrder n this h =
  match combined_order c with
  | Some o =>
      if Nat.ltb n o then (Throw (Error order_message), h)
      else (Ok tt, ranked n this c h)
  | None => (Ok tt, ranked n this c h)
  end.
Proof.
  with_strategy transparent [Selector.ensureOrder bind load store]
    (unfold Selector.ensureOrder, bind, load; rewrite Hthis;
     destruct (combined_order c) as [o|]; [destruct (Nat.ltb n o)|];
     reflexivity).
Qed.

Lemma ranked_this (n : nat) :
  ranked n this c h !! this =
  Some (CombinedSel (Combined (selector1 c) (combinator c) (selector2 c)
                       (Some n))).
Proof.
  apply list_lookup_insert_eq. now apply lookup_lt_Some in Hthis.
Qed.

Lemma store_le_ranked (n : nat) : store_le h (ranked n this c h).
Proof.
  intros l x Hl. destruct (Nat.eq_dec l this) as [-> | Hne].
  - eexists. split; [apply ranked_this|].
    rewrite Hthis in Hl. injection Hl as <-. simpl. auto.
  - exists x. split; [| apply same_text_refl].
    unfold ranked. now rewrite list_lookup_insert_ne.
Qed.

(** [clone] on a combined receiver: the new empty selector is allocated,
    then the spread of [this.classValues] throws. *)
Lemma clone_combined :
  exists h',
    Selector.clone this h
    = (Throw (TypeError "this.classValues is not iterable"), h')
    /\ store_le h h'.
Proof.
  eexists. split; [|apply store_le_app].
  rewrite <- (app_nil_r h) at 1. unfold Selector.clone.
  erewrite bind_ok by apply constructor_empty.
  erewrite bind_ok by (apply load_old; exact Hthis).
  reflexivity.
Qed.

End OnCombined.

Lemma method_combined_pass (k : category) (value : string) (this : loc)
    (h : heap) (c : combined) :
  h !! this = Some (CombinedSel c) ->
  (forall o, combined_order c = Some o -> Nat.ltb (rank k) o = false) ->
  exists h',
    method k value this h
    = (Throw (TypeError "this.classValues is not iterable"), h')
    /\ store_le h h'.
Proof.
  intros Hthis Hpass.
  pose proof (ensureOrder_combined h this c Hthis (rank k)) as Ho.
  assert (Hok : exists h1,
             Selector.ensureOrder (rank k) this h = (Ok tt, h1)
             /\ store_le h h1
             /\ h1 !! this = Some (CombinedSel
                   (Combined (selector1 c) (combinator c) (selector2 c)
                      (Some (rank k))))).
  { exists (<[this := CombinedSel
                (Combined (selector1 c) (combinator c) (selector2 c)
                   (Some (rank k)))]> h).
    split; [|split; [now apply store_le_ranked | now apply ranked_this]].
    rewrite Ho. destruct (combined_order c) as [o|]; [|reflexivity].
    now rewrite (Hpass o eq_refl). }
  destruct Hok as (h1 & Hok & Hle1 & H1).
  destruct (clone_combined h1 this _ H1) as (h' & Hc & Hle').
  assert (Hsingle : forall fieldName,
             List.In fieldName ["elementValue"; "idValue"; "pseudoElementValue"] ->
             Selector.ensureSingle fieldName this h1 = (Ok tt, h1)).
  { intros fieldName Hin. rewrite (ensureSingle_spec _ _ _ fieldName H1).
    destruct Hin as [<- | [<- | [<- | []]]]; reflexivity. }
  exists h'. split; [|eapply store_le_trans; eassumption].
  destruct k; simpl method; simpl rank in *;
    unfold Selector.element, Selector.id, Selector.class, Selector.attr,
      Selector.pseudoClass, Selector.pseudoElement;
    rewrite (bind_ok _ _ _ _ _ Hok);
    try (erewrite bind_ok by (apply Hsingle; simpl; tauto));
    now rewrite (bind_throw _ _ _ _ _ Hc).
Qed.

Lemma method_combined_block (k : category) (value : string) (this : loc)
    (h : heap) (c : combined) (o : nat) :
  h !! this = Some (CombinedSel c) ->
  combined_order c = Some o ->
  Nat.ltb (rank k) o = true ->
  method k value this h = (Throw (Error order_message), h).
Proof.
  intros Hthis Hord Hlt.
  pose proof (ensureOrder_combined h this c Hthis (rank k)) as Ho.
  rewrite Hord, Hlt in Ho.
  destruct k; simpl method; simpl rank in *;
    unfold Selector.element, Selector.id, Selector.class, Selector.attr,
      Selector.pseudoClass, Selector.pseudoElement;
    now rewrite (bind_throw _ _ _ _ _ Ho).
Qed.

(** X5.  A category method called on a combined selector never returns.
    It throws the order error, writing nothing, when an earlier call has
    left on the node a rank above its own; otherwise it throws a
    [TypeError] out of [clone].  Either way every selector of the store
    prints what it printed. *)
Theorem combined_not_extendable (k : category) (value : string)
    (this : loc) (h : heap) (c : combined) :
  h !! this = Some (CombinedSel c) ->
  exists e h',
    method k value this h = (Throw e, h')
    /\ match combined_order c with
       | Some o =>
           if Nat.ltb (rank k) o then e = Error order_message /\ h' = h
           else exists m, e = TypeError m
       | None => exists m, e = TypeError m
       end
    /\ forall s text,
         Selector.stringify s h = Some (Ok text) ->
         Selector.stringify s h' = Some (Ok text).
Proof.
  intros Hthis.
  destruct (combined_order c) as [o|] eqn:Hord;
    [destruct (Nat.ltb (rank k) o) eqn:Hlt|].
  - exists (Error order_message), h.
    split; [now apply (method_combined_block k value this h c o)|].
    split; auto.
  - destruct (method_combined_pass k value this h c Hthis) as (h' & Hcall & Hle).
    { intros o' Ho'. congruence. }
    eexists _, h'. split; [exact Hcall|]. split; [eauto|].
    intros s text. now apply stringify_le.
  - destruct (method_combined_pass k value this h c Hthis) as (h' & Hcall & Hle).
    { intros o' Ho'. congruence. }
    eexists _, h'. split; [exact Hcall|]. split; [eauto|].
    intros s text. now apply stringify_le.
Qed.

(** [combine(element('a'), '+', element('b')).class('x')] throws a
    [TypeError], and so does [.pseudoElement('y')]; after that one,
    [.class('x')] throws the order error. *)
Lemma combined_not_extendable_witness :
  let h := snd (build (Combine (Compound (Call Element "a") []) "+"
                         (Compound (Call Element "b") [])) []) in
  exists e h',
    Selector.class "x" 22 h = (Throw e, h')
    /\ (exists m, e = TypeError m)
    /\ Selector.stringify 22 h' = Some (Ok "a + b").
Proof.
  intros h.
  destruct (combined_not_extendable Class "x" 22 h (Combined 7 "+" 18 None)
              eq_refl) as (e & h' & Hcall & He & Ht).
  exists e, h'. split; [exact Hcall|]. split; [exact He|].
  apply Ht. vm_compute. reflexivity.
Defined.

(** ** [combine] takes any symbol *)

(** X6.  [combine] checks nothing about its symbol beyond truthiness: for
    every non-empty text it returns a new combined selector that holds the
    two references and the text as given, and that prints the text between
    single spaces whenever the two sides print. *)
Theorem combine_any_symbol (h : heap) (l r : loc) (symbol : string) :
  symbol <> "" ->
  cssSelectorBuilder.combine l symbol r h
  = (Ok (List.length h), h ++ [CombinedSel (Combined l symbol r None)])
  /\ forall sl sr,
       Selector.stringify l h = Some (Ok sl) ->
       Selector.stringify r h = Some (Ok sr) ->
       Selector.stringify (List.length h)
         (h ++ [CombinedSel (Combined l symbol r None)])
       = Some (Ok (sl +:+ " " +:+ symbol +:+ " " +:+ sr)).
Proof.
  intros Hs.
  assert (Ht : truthy (VString symbol) = true)
    by (destruct symbol; [now destruct Hs | reflexivity]).
  split; [now apply combine_truthy|].
  intros sl sr Hl Hr.
  now apply (stringify_combined h (Combined l symbol r None)).
Qed.

(** [combine(element('a'), ',', element('b'))] prints ["a , b"]. *)
Lemma combine_any_symbol_witness :
  let h := snd ((cssSelectorBuilder.element "a" ;;
                 cssSelectorBuilder.element "b") []) in
  Selector.stringify (List.length h)
    (h ++ [CombinedSel (Combined 7 "," 18 None)])
  = Some (Ok "a , b").
Proof.
  intros h.
  exact (proj2 (combine_any_symbol h 7 18 "," ltac:(discriminate))
           "a" "b" eq_refl eq_refl).
Defined.

(** ** The rank covers the parts *)

Ltac covers_tac :=
  unfold rank_covers_parts in *;
  cbn [v_element v_id v_classes v_attrs v_pseudoClasses v_pseudoElement
       v_order with_order apply_call rank] in *;
  rewrite ?andb_true_iff, ?orb_true_iff, ?Nat.leb_le, ?Nat.eqb_eq in *;
  intuition lia.

Lemma covers_with_order (f : view) (n : nat) :
  rank_covers_parts f = true ->
  v_order f <= n -> n <= 6 ->
  rank_covers_parts (with_order n f) = true.
Proof. destruct f. intros. covers_tac. Qed.

Lemma covers_apply_call (c : category) (value : string) (f : view) :
  rank_covers_parts f = true ->
  v_order f <= rank c ->
  rank_covers_parts (apply_call c value f) = true.
Proof. destruct f, c; intros; covers_tac. Qed.

Lemma rank_le_6 (c : category) : rank c <= 6.
Proof. destruct c; simpl; lia. Qed.

Lemma covers_already_set (c : category) (f : view) :
  rank_covers_parts f = true ->
  already_set c f = true ->
  rank c <= v_order f.
Proof.
  destruct f, c; unfold already_set; simpl; try discriminate;
    intros H Hset; apply negb_true_iff in Hset;
    unfold rank_covers_parts in H;
    cbn [v_element v_id v_classes v_attrs v_pseudoClasses v_pseudoElement
         v_order] in H;
    rewrite Hset in H; cbn [orb] in H;
    rewrite ?andb_true_iff, ?orb_true_iff, ?Nat.leb_le in H; intuition lia.
Qed.

(** X7.  The rank a simple selector holds is never below the rank of a
    part it has, and never above 6: this holds of what every entry point
    of the facade returns, and a category method keeps it, for its receiver
    (whose rank never goes down) and for the selector it returns. *)
Theorem rank_covers_parts_kept :
  (forall (c : category) (value : string) (h h' : heap) (s : loc),
      entry c value h = (Ok s, h') ->
      exists g, observe s h' = Some g /\ rank_covers_parts g = true)
  /\ (forall (c : category) (value : string) (this : loc) (h h' : heap)
             (f : view) (r : outcome loc),
         observe this h = Some f ->
         rank_covers_parts f = true ->
         method c value this h = (r, h') ->
         (exists f',
             observe this h' = Some f'
             /\ rank_covers_parts f' = true /\ v_order f <= v_order f')
         /\ (forall next, r = Ok next ->
               exists g, observe next h' = Some g
                         /\ rank_covers_parts g = true)).
Proof.
  split.
  - intros c value h h' s Hentry.
    destruct (entry_ok c value h) as (this & h1 & Hentry1 & Hobs & _).
    rewrite Hentry in Hentry1. injection Hentry1 as -> ->.
    eexists. split; [exact Hobs|].
    apply covers_apply_call; [reflexivity | simpl; lia].
  - intros c value this h h' f r Hf Hcov Hcall.
    pose proof (method_cases c value this h f Hf) as H.
    destruct (Nat.ltb_spec (rank c) (v_order f)) as [Hlt | Hle].
    + rewrite Hcall in H. injection H as -> ->. split.
      * exists f. auto.
      * intros next [=].
    + destruct H as (h1 & _ & Hthis1 & H).
      pose proof (covers_with_order f (rank c) Hcov Hle (rank_le_6 c)) as Hcov1.
      destruct (already_set c f).
      * destruct H as [H _]. rewrite Hcall in H. injection H as -> ->. split.
        -- exists (with_order (rank c) f). auto.
        -- intros next [=].
      * destruct H as (H & Hnext & _). rewrite Hcall in H.
        injection H as -> ->. split.
        -- exists (with_order (rank c) f). auto.
        -- intros next [= <-]. eexists. split; [exact Hnext|].
           now apply covers_apply_call.
Qed.

(** X8.  On a simple selector whose rank covers its parts, a category
    method that throws has written nothing: the store is the one before
    the call. *)
Theorem rejected_call_writes_nothing (c : category) (value : string)
    (this : loc) (h h' : heap) (f : view) (e : error) :
  observe this h = Some f ->
  rank_covers_parts f = true ->
  method c value this h = (Throw e, h') ->
  h' = h.
Proof.
  intros Hf Hcov Hcall.
  pose proof (method_cases c value this h f Hf) as H.
  destruct (Nat.ltb_spec (rank c) (v_order f)) as [Hlt | Hle]; [congruence|].
  destruct H as (h1 & _ & _ & H).
  destruct (already_set c f) eqn:Hset.
  - destruct H as [H Hsame]. rewrite Hcall in H. injection H as _ ->.
    apply Hsame. pose proof (covers_already_set c f Hcov Hset). lia.
  - destruct H as (H & _). congruence.
Qed.

(** [element('a')], then [.element('b')] on it. *)
Lemma rejected_call_writes_nothing_witness :
  let h := snd (cssSelectorBuilder.element "a" []) in
  snd (Selector.element "b" 7 h) = h.
Proof.
  intros h.
  assert (Hobs : observe 7 h = Some (View "a" "" [] [] [] "" 1))
    by (vm_compute; reflexivity).
  assert (Hcall : method Element "b" 7 h
                  = (Throw (Error single_message), snd (Selector.element "b" 7 h)))
    by (vm_compute; reflexivity).
  exact (rejected_call_writes_nothing Element "b" 7 h _ _ _ Hobs eq_refl Hcall).
Defined.

(** [id('a')] at the facade, then [.class('x')] on what it returns. *)
Lemma rank_covers_parts_kept_witness :
  (exists g, observe 7 (snd (cssSelectorBuilder.id "a" [])) = Some g
             /\ rank_covers_parts g = true)
  /\ (let h := snd (cssSelectorBuilder.id "a" []) in
      exists g, observe 14 (snd (Selector.class "x" 7 h)) = Some g
                /\ rank_covers_parts g = true).
Proof.
  split.
  - exact (proj1 rank_covers_parts_kept Id "a" [] _ 7
             ltac:(vm_compute; reflexivity)).
  - intros h.
    assert (Hobs : observe 7 h = Some (View "" "#a" [] [] [] "" 2))
      by (vm_compute; reflexivity).
    assert (Hcall : method Class "x" 7 h = (Ok 14, snd (Selector.class "x" 7 h)))
      by (vm_compute; reflexivity).
    exact (proj2 (proj2 rank_covers_parts_kept Class "x" 7 h _ _ _
                    Hobs eq_refl Hcall) 14 eq_refl).
Defined.

(** ** The chains the code accepts *)

Lemma nondecreasing_snoc_eq (xs : list nat) (x : nat) :
  nondecreasing (xs ++ [x]) = nondecreasing xs && Nat.leb (List.last xs 0) x.
Proof.
  induction xs as [|a [|b xs] IH].
  - reflexivity.
  - simpl. now rewrite andb_true_r.
  - change (nondecreasing ((a :: b :: xs) ++ [x]))
      with (Nat.leb a b && nondecreasing ((b :: xs) ++ [x])).
    rewrite IH.
    change (nondecreasing (a :: b :: xs))
      with (Nat.leb a b && nondecreasing (b :: xs)).
    change (List.last (a :: b :: xs) 0) with (List.last (b :: xs) 0).
    now rewrite andb_assoc.
Qed.

Lemma is_empty_append (a b : string) :
  is_empty (a +:+ b) = is_empty a && is_empty b.
Proof. destruct a; reflexivity. Qed.

Lemma is_empty_eq (s : string) : is_empty s = true -> s = "".
Proof. destruct s; [reflexivity | discriminate]. Qed.

Lemma of_category_In (c : category) (x : call) (calls : list call) :
  List.In x (of_category c calls) -> category_of x = c.
Proof.
  intros [_ H]%List.filter_In. destruct x as [k v]. simpl in H.
  now destruct k, c.
Qed.

Lemma element_join_empty (calls : list call) :
  (forall x, List.In x calls -> category_of x = Element) ->
  is_empty (join (tokens calls))
  = List.forallb (fun x => is_empty (value_of x)) calls.
Proof.
  induction calls as [|x calls IH]; intros Hall; [reflexivity|].
  simpl tokens. rewrite join_cons, is_empty_append. simpl List.forallb.
  rewrite IH by (intros y Hy; apply Hall; now right).
  unfold token. now rewrite (Hall x (or_introl eq_refl)).
Qed.

Lemma forallb_removelast {A} (P : A -> bool) (l : list A) :
  List.forallb P l = true -> List.forallb P (List.removelast l) = true.
Proof.
  induction l as [|a [|b l] IH]; try reflexivity.
  intros [Ha Hrest]%andb_true_iff.
  change (List.removelast (a :: b :: l)) with (a :: List.removelast (b :: l)).
  simpl List.forallb. rewrite Ha. now apply IH.
Qed.

Lemma of_category_snoc (k : category) (p : list call) (c : call) :
  of_category k (p ++ [c])
  = if category_eqb (category_of c) k then of_category k p ++ [c]
    else of_category k p.
Proof.
  rewrite of_category_app, (of_category_cons k c []).
  destruct (category_eqb (category_of c) k); [reflexivity | apply app_nil_r].
Qed.

Lemma element_rule_snoc (p : list call) (c : call) :
  element_rule (p ++ [c])
  = if category_eqb (category_of c) Element
    then is_empty (join (tokens (of_category Element p)))
    else element_rule p.
Proof.
  unfold element_rule. rewrite of_category_snoc.
  destruct (category_eqb (category_of c) Element); [|reflexivity].
  rewrite List.removelast_last. symmetry. apply element_join_empty.
  intros x. apply of_category_In.
Qed.

(** For [id] and [pseudoElement] the stored text is never empty once set:
    one more call fits exactly when the stored text is empty. *)
Lemma decorated_snoc (k : category) (p : list call) :
  k = Id \/ k = PseudoElement ->
  at_most_once k p = true ->
  Nat.leb (List.length (of_category k p) + 1) 1
  = is_empty (join (tokens (of_category k p))).
Proof.
  intros Hk Hp. unfold at_most_once in Hp. apply Nat.leb_le in Hp.
  destruct (of_category k p) as [|x [|y l]] eqn:E; simpl in Hp; try lia.
  - reflexivity.
  - assert (Hx : category_of x = k)
      by (apply (of_category_In k x p); rewrite E; now left).
    simpl tokens. rewrite join_cons. unfold token. rewrite Hx.
    destruct Hk as [-> | ->]; reflexivity.
Qed.

Lemma at_most_once_snoc (k : category) (p : list call) (c : call) :
  at_most_once k (p ++ [c])
  = if category_eqb (category_of c) k
    then Nat.leb (List.length (of_category k p) + 1) 1
    else at_most_once k p.
Proof.
  unfold at_most_once. rewrite of_category_snoc.
  destruct (category_eqb (category_of c) k); [|reflexivity].
  now rewrite length_app.
Qed.

(** One more call is accepted exactly when the method accepts it in the
    state the chain has reached. *)
Lemma accepted_chain_snoc (p : list call) (c : call) :
  accepted_chain p = true ->
  accepted_chain (p ++ [c])
  = Nat.leb (v_order (view_of p)) (rank (category_of c))
    && negb (already_set (category_of c) (view_of p)).
Proof.
  unfold accepted_chain. rewrite !andb_true_iff.
  intros (((Hn & He) & Hi) & Hp).
  rewrite List.map_app. cbn [List.map].
  rewrite nondecreasing_snoc_eq, element_rule_snoc, !at_most_once_snoc, Hn.
  cbn [andb view_of v_order].
  destruct (Nat.leb _ (rank (category_of c))); [|reflexivity].
  cbn [andb]. unfold already_set.
  destruct c as [[] value];
    cbn [category_of category_eqb rank Nat.eqb single andb single_value
         view_of v_element v_id v_pseudoElement truthy];
    rewrite ?negb_involutive, ?He, ?Hi, ?Hp, ?andb_true_r; try reflexivity.
  - rewrite <- (decorated_snoc Id p) by auto. reflexivity.
  - rewrite <- (decorated_snoc PseudoElement p) by auto. reflexivity.
Qed.

Lemma accepted_chain_snoc_l (p : list call) (c : call) :
  accepted_chain (p ++ [c]) = true -> accepted_chain p = true.
Proof.
  unfold accepted_chain. rewrite !andb_true_iff.
  intros (((Hn & He) & Hi) & Hp). repeat split.
  - rewrite List.map_app in Hn. now apply nondecreasing_app_l in Hn.
  - rewrite element_rule_snoc in He.
    destruct (category_eqb (category_of c) Element); [|assumption].
    apply forallb_removelast.
    rewrite <- element_join_empty; [assumption|].
    intros x. apply of_category_In.
  - now apply at_most_once_app_l in Hi.
  - now apply at_most_once_app_l in Hp.
Qed.

Lemma accepted_chain_app_l (p q : list call) :
  accepted_chain (p ++ q) = true -> accepted_chain p = true.
Proof.
  induction q as [|c q IH] using List.rev_ind.
  - now rewrite app_nil_r.
  - rewrite app_assoc. intros H%accepted_chain_snoc_l. now apply IH.
Qed.

Lemma accepted_view_snoc (p : list call) (c : call) :
  accepted_chain (p ++ [c]) = true ->
  apply_call (category_of c) (value_of c) (view_of p) = view_of (p ++ [c]).
Proof.
  intros Hacc. pose proof (accepted_chain_snoc_l _ _ Hacc) as Hp.
  rewrite (accepted_chain_snoc p c Hp) in Hacc.
  apply andb_true_iff in Hacc as [_ Hset%negb_true_iff].
  unfold already_set in Hset. unfold view_of, apply_call.
  rewrite List.map_app. cbn [List.map].
  rewrite List.last_last, !of_category_snoc.
  destruct c as [[] value];
    cbn [category_of category_eqb rank Nat.eqb value_of
         v_element v_id v_classes v_attrs v_pseudoClasses v_pseudoElement
         v_order] in *;
    rewrite ?tokens_app; try reflexivity;
    cbn [single andb single_value view_of v_element v_id v_pseudoElement
         truthy] in Hset;
    apply negb_false_iff, is_empty_eq in Hset;
    rewrite join_app, Hset; reflexivity.
Qed.

(** How far a chain gets from the state a prefix [p] has led to. *)
Lemma chain_outcome (rest p : list call) (h : heap) (this : loc) :
  observe this h = Some (view_of p) ->
  accepted_chain p = true ->
  if accepted_chain (p ++ rest)
  then exists s h',
         chain rest this h = (Ok s, h')
         /\ observe s h' = Some (view_of (p ++ rest))
  else exists e h',
         chain rest this h = (Throw (Error e), h')
         /\ (e = order_message \/ e = single_message).
Proof.
  revert p h this. induction rest as [|c rest IH]; intros p h this Hobs Hp.
  - rewrite app_nil_r, Hp. now exists this, h.
  - replace (p ++ c :: rest) with ((p ++ [c]) ++ rest)
      by now rewrite <- app_assoc.
    rewrite chain_cons.
    pose proof (accepted_chain_snoc p c Hp) as Hsnoc.
    pose proof (method_cases (category_of c) (value_of c) this h _ Hobs) as H.
    destruct (accepted_chain (p ++ [c])) eqn:Hpc.
    + symmetry in Hsnoc. apply andb_true_iff in Hsnoc as [Hle Hset].
      apply Nat.leb_le in Hle. apply negb_true_iff in Hset.
      destruct (Nat.ltb_spec (rank (category_of c)) (v_order (view_of p)));
        [lia|].
      destruct H as (h1 & _ & _ & H). rewrite Hset in H.
      destruct H as (Hcall & Hnext & _). rewrite Hcall.
      rewrite (accepted_view_snoc p c Hpc) in Hnext.
      exact (IH (p ++ [c]) h1 _ Hnext Hpc).
    + assert (Hall : accepted_chain ((p ++ [c]) ++ rest) = false).
      { destruct (accepted_chain ((p ++ [c]) ++ rest)) eqn:Hall; [|reflexivity].
        apply accepted_chain_app_l in Hall. congruence. }
      rewrite Hall. symmetry in Hsnoc. apply andb_false_iff in Hsnoc.
      destruct (Nat.ltb_spec (rank (category_of c)) (v_order (view_of p)))
        as [Hlt | Hle].
      * rewrite H. exists order_message, h. auto.
      * destruct Hsnoc as [Hleb | Hset].
        { apply Nat.leb_gt in Hleb. lia. }
        apply negb_false_iff in Hset.
        destruct H as (h1 & _ & _ & H). rewrite Hset in H.
        destruct H as [Hcall _]. rewrite Hcall.
        exists single_message, h1. auto.
Qed.

Lemma accepted_chain_single (first : call) : accepted_chain [first] = true.
Proof. now destruct first as [[] value]. Qed.

(** Every chain that is valid in the sense of C1 is accepted. *)
Lemma valid_chain_accepted (calls : list call) :
  valid_chain calls = true -> accepted_chain calls = true.
Proof.
  unfold valid_chain, accepted_chain. rewrite !andb_true_iff.
  intros (((Hn & He) & Hi) & Hp). repeat split; try assumption.
  unfold at_most_once in He. apply Nat.leb_le in He. unfold element_rule.
  destruct (of_category Element calls) as [|x [|y l]]; simpl in *;
    reflexivity || lia.
Qed.

(** X9.  Which chains the code accepts.  A chain started at the facade
    returns exactly when its ranks never go down, [id] and [pseudoElement]
    occur at most once, and no [element] call comes after an [element] call
    with a non-empty value; the selector it returns then prints the tokens
    in call order.  Every other chain throws [Error] with the order
    message or the uniqueness message. *)
Theorem builder_chain_accepted (first : call) (rest : list call) (h : heap) :
  if accepted_chain (first :: rest)
  then exists s h',
         builder_chain first rest h = (Ok s, h')
         /\ Selector.stringify s h'
            = Some (Ok (in_call_order (first :: rest)))
  else exists e h',
         builder_chain first rest h = (Throw (Error e), h')
         /\ (e = order_message \/ e = single_message).
Proof.
  destruct (entry_ok (category_of first) (value_of first) h)
    as (this & h1 & Hentry & Hobs & _).
  pose proof (accepted_chain_single first) as Hfirst.
  pose proof (accepted_view_snoc [] first Hfirst) as Hview1.
  change (view_of []) with empty_view in Hview1. rewrite Hview1 in Hobs.
  pose proof (chain_outcome rest [first] h1 this Hobs Hfirst) as H.
  change ([first] ++ rest) with (first :: rest) in H.
  unfold builder_chain. rewrite (bind_ok _ _ _ _ _ Hentry).
  destruct (accepted_chain (first :: rest)) eqn:Hacc; [|exact H].
  destruct H as (s & h' & Hrun & Hview). exists s, h'.
  split; [exact Hrun|].
  rewrite (stringify_observe _ _ _ Hview), render_view_of.
  rewrite by_group_in_call_order; [reflexivity|].
  unfold accepted_chain in Hacc. now rewrite !andb_true_iff in Hacc.
Qed.

(** [element('').element('x')] is accepted, though it is not a valid chain
    in the sense of C1; [element('x').element('')] is not accepted. *)
Example accepted_chain_examples :
  accepted_chain [Call Element ""; Call Element "x"] = true
  /\ valid_chain [Call Element ""; Call Element "x"] = false
  /\ accepted_chain [Call Element "x"; Call Element ""] = false.
Proof. repeat split. Qed.

(** ** Well-formed stores *)

Lemma cells_ok_spec (h : heap) (n : loc) (cells : list cell) :
  cells_ok h n cells = true <->
  forall i c, cells !! i = Some c -> cell_ok h (n + i) c = true.
Proof.
  revert n. induction cells as [|x cells IH]; intros n; simpl.
  - split; [intros _ i c H; discriminate | reflexivity].
  - rewrite andb_true_iff, IH. split.
    + intros [Hx Hrest] [|i] c Hi; simpl in Hi.
      * injection Hi as <-. now rewrite Nat.add_0_r.
      * replace (n + S i) with (S n + i) by lia. now apply Hrest.
    + intros Hall. split.
      * rewrite <- (Nat.add_0_r n). now apply Hall.
      * intros i c Hi. replace (S n + i) with (n + S i) by lia.
        now apply Hall.
Qed.

Lemma well_formed_spec (h : heap) :
  well_formed h = true <->
  forall l c, h !! l = Some c -> cell_ok h l c = true.
Proof. unfold well_formed. now rewrite cells_ok_spec. Qed.

Lemma is_array_le (h h' : heap) (l : loc) :
  store_le h h' -> is_array h l = true -> is_array h' l = true.
Proof.
  intros Hle. unfold is_array.
  destruct (h !! l) as [[items| |]|] eqn:Hl; try discriminate.
  destruct (Hle _ _ Hl) as ([| |] & -> & Hsame); simpl in Hsame;
    now try contradiction.
Qed.

Lemma is_selector_le (h h' : heap) (l : loc) :
  store_le h h' -> is_selector h l = true -> is_selector h' l = true.
Proof.
  intros Hle. unfold is_selector.
  destruct (h !! l) as [[| s | c]|] eqn:Hl; try discriminate;
    destruct (Hle _ _ Hl) as ([| |] & -> & Hsame); simpl in Hsame;
    now try contradiction.
Qed.

Lemma is_selector_bound (h : heap) (l : loc) :
  is_selector h l = true -> l < List.length h.
Proof.
  unfold is_selector. destruct (h !! l) eqn:Hl; [|discriminate].
  intros _. now apply lookup_lt_Some in Hl.
Qed.

Lemma cell_ok_le (h h' : heap) (l : loc) (c : cell) :
  store_le h h' -> cell_ok h l c = true -> cell_ok h' l c = true.
Proof.
  intros Hle. destruct c as [| s | c]; simpl; [reflexivity | |];
    rewrite !andb_true_iff.
  - intros ((H1 & H2) & H3). repeat split; now apply (is_array_le h).
  - intros (((H1 & H2) & H3) & H4).
    repeat split; try assumption; now apply (is_selector_le h).
Qed.

Lemma cell_ok_same_text (h : heap) (l : loc) (c c' : cell) :
  same_text c c' -> cell_ok h l c = cell_ok h l c'.
Proof.
  destruct c as [| s | c], c' as [| s' | c']; simpl; try contradiction;
    try reflexivity.
  - destruct s, s'. simpl. now intros [= <- <- <- <- <- <-].
  - now intros (-> & _ & ->).
Qed.

(** A store above a well-formed one is well-formed when its new cells
    are. *)
Lemma well_formed_extend (h h' : heap) :
  well_formed h = true ->
  store_le h h' ->
  (forall l c, List.length h <= l -> h' !! l = Some c -> cell_ok h' l c = true) ->
  well_formed h' = true.
Proof.
  rewrite !well_formed_spec. intros Hwf Hle Hnew l c' Hl.
  destruct (Nat.lt_ge_cases l (List.length h)) as [Hlt | Hge];
    [|now apply Hnew].
  destruct (lookup_lt_is_Some_2 h l Hlt) as [c Hc].
  destruct (Hle _ _ Hc) as (c'' & Hc'' & Hsame).
  rewrite Hl in Hc''. injection Hc'' as <-.
  rewrite <- (cell_ok_same_text h' l c c' Hsame).
  apply (cell_ok_le h); [assumption | now apply Hwf].
Qed.

Lemma well_formed_new_selector (h : heap) :
  well_formed h = true ->
  well_formed
    (h ++ [Array []; Array []; Array [];
           SimpleSel (Simple "" "" (List.length h + 0) (List.length h + 1)
                        (List.length h + 2) "" 0)]) = true.
Proof.
  intros Hwf. apply (well_formed_extend h); [assumption | apply store_le_app |].
  intros l c Hge Hl. rewrite lookup_app_r in Hl by assumption.
  destruct (l - List.length h) as [|[|[|[|k]]]]; simpl in Hl;
    try discriminate; injection Hl as <-; try reflexivity.
  simpl. unfold is_array. now rewrite !lookup_new.
Qed.

Lemma well_formed_extended (h : heap) (this : loc) (s next : simple)
    (cs ats pcs : list string) :
  well_formed h = true ->
  h !! this = Some (SimpleSel s) ->
  well_formed (extended h this s next cs ats pcs) = true.
Proof.
  intros Hwf Hthis.
  apply (well_formed_extend h); [assumption | now apply store_le_extended |].
  intros l c Hge Hl. unfold extended in Hl |- *.
  rewrite lookup_app_r in Hl by now rewrite length_marked.
  rewrite length_marked in Hl.
  destruct (l - List.length h) as [|[|[|[|[|[|[|k]]]]]]]; simpl in Hl;
    try discriminate; injection Hl as <-; try reflexivity.
  simpl. unfold is_array.
  rewrite <- (length_marked (order next) this s h).
  now rewrite !lookup_new.
Qed.

Lemma observe_of_well_formed (h : heap) (this : loc) (s : simple) :
  well_formed h = true ->
  h !! this = Some (SimpleSel s) ->
  exists f, observe this h = Some f.
Proof.
  intros Hwf Hthis. rewrite well_formed_spec in Hwf.
  pose proof (Hwf _ _ Hthis) as Hok. simpl in Hok.
  rewrite !andb_true_iff in Hok. destruct Hok as ((H1 & H2) & H3).
  unfold is_array in *. unfold observe. rewrite Hthis.
  destruct (h !! classValues s) as [[| |]|]; try discriminate.
  destruct (h !! attrValues s) as [[| |]|]; try discriminate.
  destruct (h !! pseudoClassValues s) as [[| |]|]; try discriminate.
  eauto.
Qed.

Lemma well_formed_method (c : category) (value : string) (this : loc)
    (h : heap) (f : view) :
  well_formed h = true ->
  observe this h = Some f ->
  well_formed (snd (method c value this h)) = true.
Proof.
  intros Hwf (s & Hthis & Hcs & Hats & Hpcs & _)%observe_Some.
  destruct (method_store c value this h s _ _ _ Hthis Hcs Hats Hpcs)
    as [-> | [-> | (next & cs' & ats' & pcs' & _ & ->)]].
  - assumption.
  - apply (well_formed_extend h);
      [assumption | now apply store_le_marked |].
    intros l x Hge Hl. apply lookup_lt_Some in Hl.
    rewrite length_marked in Hl. lia.
  - now apply well_formed_extended.
Qed.

Lemma entry_unfold (c : category) (value : string) (h : heap) :
  entry c value h
  = method c value (List.length h + 3)
      (h ++ [Array []; Array []; Array [];
             SimpleSel (Simple "" "" (List.length h + 0) (List.length h + 1)
                          (List.length h + 2) "" 0)]).
Proof.
  pose proof (constructor_empty h []) as Hnew.
  rewrite app_nil_r in Hnew. simpl in Hnew.
  destruct c; simpl entry; simpl method;
    unfold cssSelectorBuilder.element, cssSelectorBuilder.id,
      cssSelectorBuilder.class, cssSelectorBuilder.attr,
      cssSelectorBuilder.pseudoClass, cssSelectorBuilder.pseudoElement;
    now rewrite (bind_ok _ _ _ _ _ Hnew).
Qed.

(** X10.  Well-formed stores stay well-formed.  In a well-formed store the
    array properties of every simple selector point to arrays, and the
    children of every combined selector are selectors allocated before it.
    The empty store is well-formed, and so is the store after a category
    method on a simple selector (returning or throwing), after an entry
    point of the facade, and after [combine] of two selectors. *)
Theorem well_formed_kept (h : heap) :
  well_formed h = true ->
  (forall (c : category) (value : string) (this : loc) (s : simple),
      h !! this = Some (SimpleSel s) ->
      well_formed (snd (method c value this h)) = true)
  /\ (forall (c : category) (value : string),
         well_formed (snd (entry c value h)) = true)
  /\ (forall (l r : loc) (symbol : string),
         is_selector h l = true ->
         is_selector h r = true ->
         well_formed (snd (cssSelectorBuilder.combine l symbol r h)) = true).
Proof.
  intros Hwf. split; [|split].
  - intros c value this s Hthis.
    destruct (observe_of_well_formed h this s Hwf Hthis) as [f Hf].
    now apply (well_formed_method c value this h f).
  - intros c value. rewrite entry_unfold.
    pose proof (well_formed_new_selector h Hwf) as Hwf1.
    eapply well_formed_method; [exact Hwf1|].
    unfold observe. rewrite lookup_new. simpl. now rewrite !lookup_new.
  - intros l r symbol Hl Hr.
    destruct (truthy (VString symbol)) eqn:Hs.
    + rewrite (combine_truthy _ _ _ _ Hs). simpl.
      apply (well_formed_extend h); [assumption | apply store_le_app |].
      intros k x Hge Hk. rewrite lookup_app_r in Hk by assumption.
      destruct (k - List.length h) as [|k'] eqn:Hk'; simpl in Hk;
        [|discriminate].
      injection Hk as <-. simpl. rewrite !andb_true_iff.
      pose proof (is_selector_bound _ _ Hl).
      pose proof (is_selector_bound _ _ Hr).
      repeat split; try (apply Nat.ltb_lt; lia);
        now apply (is_selector_le h); [apply store_le_app|].
    + rewrite (combine_falsy _ _ _ _ Hs).
      rewrite <- (app_nil_r h) at 1. rewrite constructor_empty. simpl.
      now apply well_formed_new_selector.
Qed.

(** The store after [combine(element('a'), '+', element('b'))], then
    [.id('x')] on the first selector and [combine] of the two again. *)
Lemma well_formed_kept_witness :
  let h := snd (build (Combine (Compound (Call Element "a") []) "+"
                         (Compound (Call Element "b") [])) []) in
  well_formed (snd (Selector.id "x" 7 h)) = true
  /\ well_formed (snd (cssSelectorBuilder.combine 22 ">" 7 h)) = true.
Proof.
  intros h.
  assert (Hwf : well_formed h = true) by (vm_compute; reflexivity).
  split.
  - exact (proj1 (well_formed_kept h Hwf) Id "x" 7
             (Simple "a" "" 8 9 10 "" 1) eq_refl).
  - exact (proj2 (proj2 (well_formed_kept h Hwf)) 22 7 ">" eq_refl eq_refl).
Defined.

Lemma stringify_fuel_total (h : heap) (n : nat) (this : loc) :
  well_formed h = true ->
  this < n ->
  is_selector h this = true ->
  exists text, Selector.stringify_fuel n this h = Some (Ok text).
Proof.
  intros Hwf. rewrite well_formed_spec in Hwf. revert this.
  induction n as [|n IH]; intros this Hlt Hsel; [lia|].
  unfold is_selector in Hsel. simpl.
  destruct (h !! this) as [[| s | c]|] eqn:Hthis; try discriminate.
  - pose proof (Hwf _ _ Hthis) as Hok. simpl in Hok.
    rewrite !andb_true_iff in Hok. destruct Hok as ((H1 & H2) & H3).
    unfold is_array in *.
    destruct (h !! classValues s) as [[| |]|]; try discriminate.
    destruct (h !! attrValues s) as [[| |]|]; try discriminate.
    destruct (h !! pseudoClassValues s) as [[| |]|]; try discriminate.
    eauto.
  - pose proof (Hwf _ _ Hthis) as Hok. simpl in Hok.
    rewrite !andb_true_iff, !Nat.ltb_lt in Hok.
    destruct Hok as (((H1 & H2) & H3) & H4).
    destruct (IH (selector1 c) ltac:(lia) H3) as [s1 ->].
    destruct (IH (selector2 c) ltac:(lia) H4) as [s2 ->].
    eauto.
Qed.

(** X11.  In a well-formed store [stringify] returns a text for every
    selector, simple or combined: it throws nothing, and the recursion
    through the children ends within the depth the store allows. *)
Theorem stringify_total (h : heap) (this : loc) :
  well_formed h = true ->
  is_selector h this = true ->
  exists text, Selector.stringify this h = Some (Ok text).
Proof.
  intros Hwf Hsel. unfold Selector.stringify.
  apply stringify_fuel_total; [assumption | | assumption].
  now apply is_selector_bound.
Qed.

(** The nested example of the documentation of the source. *)
Lemma stringify_total_witness :
  let h :=
    snd (build
      (Combine
         (Compound (Call Element "div")
            [Call Id "main"; Call Class "container"; Call Class "draggable"])
         "+"
         (Combine
            (Compound (Call Element "table") [Call Id "data"])
            "~"
            (Combine
               (Compound (Call Element "tr")
                  [Call PseudoClass "nth-of-type(even)"])
               " "
               (Compound (Call Element "td")
                  [Call PseudoClass "nth-of-type(even)"])))) []) in
  exists text, Selector.stringify (List.length h - 1) h = Some (Ok text).
Proof.
  intros h.
  exact (stringify_total h (List.length h - 1)
           ltac:(vm_compute; reflexivity) ltac:(vm_compute; reflexivity)).
Defined.

(** The nested example of the documentation prints the documented text,
    with three spaces where the symbol is the space. *)
Example documented_combination :
  let e :=
    Combine
      (Compound (Call Element "div")
         [Call Id "main"; Call Class "container"; Call Class "draggable"])
      "+"
      (Combine
         (Compound (Call Element "table") [Call Id "data"])
         "~"
         (Combine
            (Compound (Call Element "tr")
               [Call PseudoClass "nth-of-type(even)"])
            " "
            (Compound (Call Element "td")
               [Call PseudoClass "nth-of-type(even)"]))) in
  exists s h',
    build e [] = (Ok s, h')
    /\ Selector.stringify s h'
       = Some (Ok "div#main.container.draggable + table#data ~ tr:nth-of-type(even)   td:nth-of-type(even)").
Proof. do 2 eexists. split; vm_compute; reflexivity. Qed.

(** * The round trip of the JSON helpers *)

(** *** Strings *)

Ltac each_ascii c :=
  destruct c as [[] [] [] [] [] [] [] []].

Lemma parse_string_escape_char (c : ascii) (tail : list ascii) :
  parse_string (escape_char c ++ tail) = parsed_cons c (parse_string tail).
Proof. each_ascii c; reflexivity. Qed.

Lemma parse_string_escape (cs rest : list ascii) :
  parse_string (List.flat_map escape_char cs ++ quotation_mark :: rest)
  = Parsed cs rest.
Proof.
  induction cs as [|c cs IH]; [reflexivity|].
  simpl List.flat_map. rewrite <- app_assoc, parse_string_escape_char, IH.
  reflexivity.
Qed.

(** *** Numbers *)

Lemma digits_are_digits (d : uint) : List.forallb is_digit (digits d) = true.
Proof. induction d; simpl; auto. Qed.

Lemma uint_of_digits_digits (d : uint) : uint_of_digits (digits d) = d.
Proof. induction d; simpl; now rewrite ?IHd. Qed.

Lemma digits_uint_of_digits (cs : list ascii) :
  List.forallb is_digit cs = true -> digits (uint_of_digits cs) = cs.
Proof.
  induction cs as [|c cs IH]; [reflexivity|].
  simpl List.forallb. intros [Hc Hcs]%andb_true_iff.
  simpl uint_of_digits. specialize (IH Hcs). revert Hc IH.
  generalize (uint_of_digits cs). intros d Hc IH.
  each_ascii c; try discriminate Hc; simpl; now rewrite IH.
Qed.

Lemma take_digits_app (cs rest : list ascii) :
  List.forallb is_digit cs = true ->
  match rest with c :: _ => is_digit c = false | [] => True end ->
  take_digits (cs ++ rest) = (cs, rest).
Proof.
  intros Hcs Hrest. induction cs as [|c cs IH].
  - destruct rest as [|c rest]; [reflexivity|]. simpl. now rewrite Hrest.
  - simpl in Hcs. apply andb_true_iff in Hcs as [Hc Hcs].
    simpl. now rewrite Hc, (IH Hcs).
Qed.

Lemma to_uint_normal (m : N) : unorm (N.to_uint m) = N.to_uint m.
Proof.
  now rewrite <- (DecimalN.Unsigned.to_of (N.to_uint m)),
    DecimalN.Unsigned.of_to.
Qed.

(** The digits of a number start with [0] only for [0] itself. *)
Lemma to_uint_leading_zero (m : N) (d : uint) :
  N.to_uint m = D0 d -> d = Nil.
Proof.
  intros H. rewrite <- to_uint_normal in H. unfold unorm in H.
  destruct (nzhead (N.to_uint m)) eqn:Hn; try discriminate.
  - now injection H.
  - now apply nzhead_nonzero in Hn.
Qed.

Lemma to_uint_nonnil (m : N) : N.to_uint m <> Nil.
Proof. rewrite <- to_uint_normal. apply unorm_nonnil. Qed.

Lemma digits_head (d : uint) :
  d <> Nil -> exists c cs, digits d = c :: cs /\ is_digit c = true
                           /\ (Ascii.eqb c "0"%char = true -> exists d', d = D0 d').
Proof.
  destruct d; intros H; try (now destruct H);
    do 2 eexists; (split; [reflexivity|]); split; try reflexivity;
    try discriminate; eauto.
Qed.

Lemma ends_number_digit (rest : list ascii) :
  ends_number rest = true ->
  match rest with c :: _ => is_digit c = false | [] => True end.
Proof.
  destruct rest as [|c rest]; [trivial|]. unfold ends_number.
  intros [H _]%andb_true_iff. now apply negb_true_iff in H.
Qed.

Lemma ends_number_fraction (rest : list ascii) :
  ends_number rest = true -> starts_fraction_or_exponent rest = false.
Proof.
  destruct rest as [|c rest]; [reflexivity|]. unfold ends_number.
  intros [_ H]%andb_true_iff. now apply negb_true_iff in H.
Qed.

Lemma parse_number_text (negative : bool) (m : N) (rest : list ascii) :
  (m < 2 ^ 53)%N ->
  negb (negative && N.eqb m 0) = true ->
  ends_number rest = true ->
  parse_number (number_text negative m ++ rest)
  = Parsed (JNumber negative m) rest.
Proof.
  intros Hm Hz Hrest.
  destruct (digits_head (N.to_uint m) (to_uint_nonnil m))
    as (c & cs & Hd & Hc & Hzero).
  assert (Htake : take_digits (digits (N.to_uint m) ++ rest)
                  = (digits (N.to_uint m), rest)).
  { apply take_digits_app; [apply digits_are_digits|].
    now apply ends_number_digit. }
  assert (Hminus : Ascii.eqb c "-"%char = false)
    by (revert Hc; clear; each_ascii c; now vm_compute).
  assert (Hlead : Ascii.eqb c "0"%char && negb (Nat.eqb (List.length cs) 0)
                  = false).
  { destruct (Ascii.eqb c "0"%char) eqn:H0; [|reflexivity].
    destruct (Hzero eq_refl) as [d' Hd'].
    pose proof (to_uint_leading_zero m d' Hd') as ->.
    rewrite Hd' in Hd. simpl in Hd. now injection Hd as _ <-. }
  assert (Hback : N.of_uint (uint_of_digits (digits (N.to_uint m))) = m)
    by now rewrite uint_of_digits_digits, DecimalN.Unsigned.of_to.
  apply N.ltb_lt in Hm.
  unfold number_text, parse_number.
  destruct (negative && negb (N.eqb m 0)) eqn:Hsign.
  - apply andb_true_iff in Hsign as [-> _].
    change ((["-"%char] ++ digits (N.to_uint m)) ++ rest)
      with ("-"%char :: (digits (N.to_uint m) ++ rest)).
    cbn [Ascii.eqb Bool.eqb]. rewrite Htake, Hd. cbv beta iota.
    rewrite Hlead, (ends_number_fraction rest Hrest), <- Hd, Hback, Hm.
    reflexivity.
  - assert (negative = false) as ->.
    { destruct negative; [|reflexivity].
      simpl in Hsign, Hz. rewrite Hsign in Hz. discriminate. }
    cbn [app]. rewrite Hd. cbn [app]. rewrite Hminus. cbv beta iota.
    change (c :: cs ++ rest) with ((c :: cs) ++ rest).
    rewrite <- Hd, Htake, Hd. cbv beta iota.
    rewrite Hlead, (ends_number_fraction rest Hrest), <- Hd, Hback, Hm.
    reflexivity.
Qed.

(** *** Values *)

Lemma json_induction (P : json -> Prop) :
  P JNull ->
  (forall b, P (JBoolean b)) ->
  (forall negative magnitude, P (JNumber negative magnitude)) ->
  (forall s, P (JString s)) ->
  (forall items, List.Forall P items -> P (JArray items)) ->
  (forall props, List.Forall (fun p => P (snd p)) props -> P (JObject props)) ->
  forall v, P v.
Proof.
  intros Hnull Hbool Hnum Hstr Harr Hobj. fix IH 1. intros [| b | s m | s | items | props].
  - exact Hnull.
  - apply Hbool.
  - apply Hnum.
  - apply Hstr.
  - apply Harr. induction items as [|x items IHitems]; constructor.
    + apply IH.
    + exact IHitems.
  - apply Hobj. induction props as [|p props IHprops]; constructor.
    + apply IH.
    + exact IHprops.
Qed.

Lemma join_comma_cons (t : list ascii) (ts : list (list ascii)) :
  join_comma (t :: ts) = t ++ List.flat_map (fun x => ","%char :: x) ts.
Proof.
  revert t. induction ts as [|u ts IH]; intros t.
  - simpl. now rewrite app_nil_r.
  - change (join_comma (t :: u :: ts)) with (t ++ ","%char :: join_comma (u :: ts)).
    now rewrite IH.
Qed.

Lemma flat_map_of_map {A B C} (f : A -> B) (g : B -> list C) (l : list A) :
  List.flat_map g (List.map f l) = List.flat_map (fun x => g (f x)) l.
Proof. induction l as [|x l IH]; simpl; now rewrite ?IH. Qed.

Lemma serialize_array_cons (x : json) (xs : list json) :
  serialize (JArray (x :: xs))
  = "["%char :: serialize x ++ elements_text xs ++ ["]"%char].
Proof.
  cbn [serialize List.map]. rewrite join_comma_cons, flat_map_of_map.
  now rewrite <- app_assoc.
Qed.

Lemma quote_member (p : string * json) :
  quote (fst p) ++ ":"%char :: serialize (snd p)
  = quotation_mark :: member_text p.
Proof. unfold quote, member_text. cbn [app]. now rewrite <- app_assoc. Qed.

Lemma serialize_object_cons (p : string * json) (ps : list (string * json)) :
  serialize (JObject (p :: ps))
  = "{"%char :: quotation_mark :: member_text p ++ members_text ps ++ ["}"%char].
Proof.
  cbn [serialize List.map]. rewrite join_comma_cons, flat_map_of_map, quote_member.
  rewrite (List.flat_map_ext _
             (fun p => ","%char :: quotation_mark :: member_text p))
    by (intros q; now rewrite quote_member).
  cbn [app]. now rewrite <- app_assoc.
Qed.

Lemma value_start_facts (c : ascii) :
  value_start c = true ->
  is_ws c = false /\ Ascii.eqb c "]"%char = false.
Proof. each_ascii c; vm_compute; intuition congruence. Qed.

Lemma serialize_head (v : json) :
  exists c tl, serialize v = c :: tl /\ value_start c = true.
Proof.
  destruct v as [| [] | negative m | s | items | props];
    try (do 2 eexists; split; [reflexivity | reflexivity]).
  destruct (digits_head (N.to_uint m) (to_uint_nonnil m))
    as (c & cs & Hd & Hc & _).
  cbn [serialize]. unfold number_text. rewrite Hd.
  destruct (negative && negb (N.eqb m 0)).
  - do 2 eexists. split; reflexivity.
  - exists c, cs. split; [reflexivity|].
    unfold value_start. rewrite Hc. now rewrite !orb_true_r.
Qed.

Lemma skip_ws_head (c : ascii) (l : list ascii) :
  is_ws c = false -> skip_ws (c :: l) = c :: l.
Proof. intros H. simpl. now rewrite H. Qed.

(** The branches of [parse_value] by first character. *)
Lemma parse_value_number (fuel : nat) (c : ascii) (tl : list ascii) :
  Ascii.eqb c "-"%char || is_digit c = true ->
  parse_value (S fuel) (c :: tl) = parse_number (c :: tl).
Proof. each_ascii c; intros H; try discriminate H; reflexivity. Qed.

Lemma parse_value_string (fuel : nat) (tl : list ascii) :
  parse_value (S fuel) (quotation_mark :: tl)
  = parsed_bind (parse_string tl) (fun s rest' =>
      Parsed (JString (string_of_list_ascii s)) rest').
Proof. reflexivity. Qed.

Lemma parse_value_array (fuel : nat) (tl : list ascii) :
  parse_value (S fuel) ("["%char :: tl)
  = if begins_with "]"%char (skip_ws tl)
    then Parsed (JArray []) (List.tl (skip_ws tl))
    else
      parsed_bind (parse_value fuel tl) (fun x rest1 =>
      parsed_bind (parse_elements fuel rest1) (fun xs rest2 =>
        Parsed (JArray (x :: xs)) rest2)).
Proof. reflexivity. Qed.

Lemma parse_value_object (fuel : nat) (tl : list ascii) :
  parse_value (S fuel) ("{"%char :: tl)
  = if begins_with "}"%char (skip_ws tl)
    then Parsed (JObject []) (List.tl (skip_ws tl))
    else if begins_with quotation_mark (skip_ws tl) then
      parsed_bind (parse_key (List.tl (skip_ws tl))) (fun k rest1 =>
      parsed_bind (parse_value fuel rest1) (fun x rest2 =>
      parsed_bind (parse_members fuel rest2) (fun ms rest3 =>
        Parsed (JObject (object_properties ((k, x) :: ms))) rest3)))
    else SyntaxErr.
Proof. reflexivity. Qed.

Lemma parse_elements_end (fuel : nat) (tl : list ascii) :
  parse_elements (S fuel) ("]"%char :: tl) = Parsed [] tl.
Proof. reflexivity. Qed.

Lemma parse_elements_comma (fuel : nat) (tl : list ascii) :
  parse_elements (S fuel) (","%char :: tl)
  = parsed_bind (parse_value fuel tl) (fun x rest1 =>
    parsed_bind (parse_elements fuel rest1) (fun xs rest2 =>
      Parsed (x :: xs) rest2)).
Proof. reflexivity. Qed.

Lemma parse_members_end (fuel : nat) (tl : list ascii) :
  parse_members (S fuel) ("}"%char :: tl) = Parsed [] tl.
Proof. reflexivity. Qed.

Lemma parse_members_comma (fuel : nat) (tl : list ascii) :
  parse_members (S fuel) (","%char :: quotation_mark :: tl)
  = parsed_bind (parse_key tl) (fun k rest1 =>
    parsed_bind (parse_value fuel rest1) (fun x rest2 =>
    parsed_bind (parse_members fuel rest2) (fun ms rest3 =>
      Parsed ((k, x) :: ms) rest3))).
Proof. reflexivity. Qed.

Lemma parse_key_member (k : string) (tl : list ascii) :
  parse_key (List.flat_map escape_char (list_ascii_of_string k)
             ++ quotation_mark :: ":"%char :: tl)
  = Parsed k tl.
Proof.
  unfold parse_key. rewrite parse_string_escape. simpl.
  now rewrite string_of_list_ascii_of_string.
Qed.

Lemma js_value_array (xs : list json) :
  js_value (JArray xs) <-> List.Forall js_value xs.
Proof.
  induction xs as [|x xs IH]; simpl.
  - split; [constructor | trivial].
  - rewrite List.Forall_cons_iff. simpl in IH. now rewrite IH.
Qed.

Lemma js_value_object (ps : list (string * json)) :
  js_value (JObject ps)
  <-> object_properties ps = ps /\ List.Forall (fun p => js_value (snd p)) ps.
Proof.
  simpl. apply and_iff_compat_l.
  induction ps as [|p ps IH].
  - split; [constructor | trivial].
  - rewrite List.Forall_cons_iff. now rewrite IH.
Qed.

Lemma ends_number_begins (c : ascii) (tl : list ascii) :
  Ascii.eqb c ","%char || Ascii.eqb c "]"%char || Ascii.eqb c "}"%char = true ->
  ends_number (c :: tl) = true.
Proof. each_ascii c; intros H; try discriminate H; reflexivity. Qed.

Lemma ends_number_elements (xs : list json) (rest : list ascii) :
  ends_number (elements_text xs ++ "]"%char :: rest) = true.
Proof. now destruct xs. Qed.

Lemma ends_number_members (ps : list (string * json)) (rest : list ascii) :
  ends_number (members_text ps ++ "}"%char :: rest) = true.
Proof. now destruct ps. Qed.

Lemma reads_back_elements (xs : list json) :
  List.Forall reads_back xs ->
  List.Forall js_value xs ->
  List.forallb no_negative_zero xs = true ->
  forall fuel rest,
    List.length (elements_text xs) < fuel ->
    parse_elements fuel (elements_text xs ++ "]"%char :: rest)
    = Parsed xs rest.
Proof.
  induction xs as [|x xs IH]; intros Hall Hjs Hnz fuel rest Hfuel;
    (destruct fuel as [|fuel]; [lia|]).
  - apply parse_elements_end.
  - apply List.Forall_cons_iff in Hall as [Hx Hall].
    apply List.Forall_cons_iff in Hjs as [Hjx Hjs].
    simpl in Hnz. apply andb_true_iff in Hnz as [Hnx Hnz].
    change (elements_text (x :: xs))
      with (","%char :: serialize x ++ elements_text xs) in *.
    cbn [List.length] in Hfuel. rewrite length_app in Hfuel.
    cbn [app]. rewrite <- app_assoc. rewrite parse_elements_comma.
    rewrite (Hx Hjx Hnx) by (lia || apply ends_number_elements).
    cbn [parsed_bind].
    rewrite (IH Hall Hjs Hnz) by lia.
    reflexivity.
Qed.

Lemma reads_back_members (ps : list (string * json)) :
  List.Forall (fun p => reads_back (snd p)) ps ->
  List.Forall (fun p => js_value (snd p)) ps ->
  List.forallb (fun p => no_negative_zero (snd p)) ps = true ->
  forall fuel rest,
    List.length (members_text ps) < fuel ->
    parse_members fuel (members_text ps ++ "}"%char :: rest)
    = Parsed ps rest.
Proof.
  induction ps as [|p ps IH]; intros Hall Hjs Hnz fuel rest Hfuel;
    (destruct fuel as [|fuel]; [lia|]).
  - apply parse_members_end.
  - apply List.Forall_cons_iff in Hall as [Hx Hall].
    apply List.Forall_cons_iff in Hjs as [Hjx Hjs].
    simpl in Hnz. apply andb_true_iff in Hnz as [Hnx Hnz].
    change (members_text (p :: ps))
      with (","%char :: quotation_mark
            :: (List.flat_map escape_char (list_ascii_of_string (fst p))
                ++ quotation_mark :: ":"%char :: serialize (snd p))
               ++ members_text ps) in *.
    cbn [List.length] in Hfuel. rewrite !length_app in Hfuel.
    cbn [List.length] in Hfuel.
    cbn [app]. rewrite <- ?app_assoc. cbn [app]. rewrite <- ?app_assoc.
    rewrite parse_members_comma, parse_key_member.
    cbn [parsed_bind].
    rewrite (Hx Hjx Hnx) by (lia || apply ends_number_members).
    cbn [parsed_bind].
    rewrite (IH Hall Hjs Hnz) by lia.
    now destruct p.
Qed.

Lemma reads_back_all (v : json) : reads_back v.
Proof.
  induction v as [| b | negative m | s | items IH | props IH]
    using json_induction;
    intros Hjs Hnz fuel rest Hfuel Hrest;
    (destruct fuel as [|fuel]; [lia|]).
  - reflexivity.
  - now destruct b.
  - destruct (serialize_head (JNumber negative m)) as (c & tl & Hc & Hstart).
    cbn [serialize] in *. rewrite Hc. cbn [app].
    rewrite parse_value_number.
    + change (c :: tl ++ rest) with ((c :: tl) ++ rest).
      rewrite <- Hc. now apply parse_number_text.
    + revert Hc Hstart. unfold number_text.
      destruct (negative && negb (N.eqb m 0)).
      * intros [= <- _] _. reflexivity.
      * cbn [app]. intros Hd _.
        pose proof (digits_are_digits (N.to_uint m)) as Hall.
        rewrite Hd in Hall. simpl in Hall.
        apply andb_true_iff in Hall as [-> _]. apply orb_true_r.
  - cbn [serialize]. unfold quote. cbn [app]. rewrite <- app_assoc.
    rewrite parse_value_string. cbn [app].
    rewrite parse_string_escape. cbn [parsed_bind].
    now rewrite string_of_list_ascii_of_string.
  - destruct items as [|x xs]; [reflexivity|].
    rewrite serialize_array_cons in *. cbn [app].
    rewrite parse_value_array.
    destruct (serialize_head x) as (c & tl & Hc & Hstart).
    destruct (value_start_facts c Hstart) as [Hws Hclose].
    rewrite <- ?app_assoc. rewrite Hc at 1. cbn [app].
    rewrite (skip_ws_head c _ Hws). cbn [begins_with]. rewrite Hclose.
    apply js_value_array in Hjs.
    apply List.Forall_cons_iff in Hjs as [Hjx Hjs].
    apply List.Forall_cons_iff in IH as [Hx IH].
    simpl in Hnz. apply andb_true_iff in Hnz as [Hnx Hnz].
    simpl in Hfuel. rewrite !length_app in Hfuel. simpl in Hfuel.
    rewrite (Hx Hjx Hnx) by (lia || apply ends_number_elements).
    cbn [parsed_bind].
    rewrite (reads_back_elements xs IH Hjs Hnz) by lia.
    reflexivity.
  - apply js_value_object in Hjs as [Hbuild Hjs].
    destruct props as [|p ps]; [reflexivity|].
    rewrite serialize_object_cons in *. cbn [app].
    rewrite parse_value_object.
    assert (Hq : skip_ws (quotation_mark :: member_text p ++ (members_text ps ++ ["}"%char]) ++ rest)
                 = quotation_mark :: member_text p ++ (members_text ps ++ ["}"%char]) ++ rest)
      by reflexivity.
    rewrite <- ?app_assoc in *. rewrite Hq. cbn [begins_with List.tl].
    change (Ascii.eqb quotation_mark "}"%char) with false.
    change (Ascii.eqb quotation_mark quotation_mark) with true.
    cbv iota.
    apply List.Forall_cons_iff in Hjs as [Hjx Hjs].
    apply List.Forall_cons_iff in IH as [Hx IH].
    simpl in Hnz. apply andb_true_iff in Hnz as [Hnx Hnz].
    simpl in Hfuel. rewrite !length_app in Hfuel. simpl in Hfuel.
    unfold member_text in *. rewrite !length_app in Hfuel. simpl in Hfuel.
    rewrite <- ?app_assoc. cbn [app].
    rewrite parse_key_member. cbn [parsed_bind].
    rewrite (Hx Hjx Hnx) by (lia || apply ends_number_members).
    cbn [parsed_bind].
    rewrite (reads_back_members ps IH Hjs Hnz) by lia.
    cbn [parsed_bind].
    replace ((fst p, snd p) :: ps) with (p :: ps) by now destruct p.
    now rewrite Hbuild.
Qed.

(** *** Objects in enumeration order *)

Lemma has_key_not_in {A : Type} (key : string) (props : list (string * A)) :
  ~ List.In key (List.map fst props) -> has_key key props = false.
Proof.
  induction props as [|p props IH]; [reflexivity|].
  simpl. intros Hnot. apply orb_false_iff. split.
  - apply String.eqb_neq. intros ->. apply Hnot. now left.
  - apply IH. intros Hin. apply Hnot. now right.
Qed.

Lemma fold_define_property_plain {A : Type} (props acc : list (string * A)) :
  List.NoDup (List.map fst (acc ++ props)) ->
  List.Forall (fun p => array_index (fst p) = None) props ->
  List.fold_left define_property props acc = acc ++ props.
Proof.
  revert acc. induction props as [|p props IH]; intros acc Hnodup Hplain.
  - now rewrite app_nil_r.
  - apply List.Forall_cons_iff in Hplain as [Hp Hplain].
    cbn [List.fold_left].
    assert (Hnew : define_property acc p = acc ++ [p]).
    { unfold define_property. rewrite has_key_not_in, Hp; [reflexivity|].
      rewrite List.map_app in Hnodup. cbn [List.map] in Hnodup.
      apply List.NoDup_remove_2 in Hnodup.
      intros Hin. apply Hnodup. apply List.in_or_app. now left. }
    rewrite Hnew, IH by (rewrite <- ?app_assoc; assumption).
    now rewrite <- app_assoc.
Qed.

(** An object whose keys differ from one another and are not array indices
    is enumerated in the order in which its properties were defined. *)
Lemma object_properties_plain {A : Type} (props : list (string * A)) :
  List.NoDup (List.map fst props) ->
  List.Forall (fun p => array_index (fst p) = None) props ->
  object_properties props = props.
Proof.
  intros Hnodup Hplain. unfold object_properties.
  now rewrite fold_define_property_plain.
Qed.

(** *** The whole text *)

Lemma JSON_parse_stringify (v : json) :
  js_value v ->
  no_negative_zero v = true ->
  JSON_parse (JSON_stringify v) = Completed v.
Proof.
  intros Hjs Hnz. unfold JSON_parse, JSON_stringify.
  rewrite list_ascii_of_string_of_list_ascii.
  pose proof (reads_back_all v Hjs Hnz (S (List.length (serialize v))) []
                ltac:(lia) eq_refl) as H.
  rewrite app_nil_r in H. now rewrite H.
Qed.



